(** * AsyncQueue: a shallow embedding of the asynchronous task queue

    The class [AsyncQueue] keeps a list of pending entries ordered by
    priority (highest at the tail, taken with [Array.prototype.pop]), a
    counter of running tasks, a pause flag and a list of callbacks for the
    empty event.  Every call of [add] builds the promise chain

      new Promise(...).catch(QueueClearError filter).finally(bookkeeping)

    and returns the last promise of that chain to the caller.

    The embedding threads an explicit [World] through every method: the
    object itself ([this]), the tasks whose [task()] call has been made and
    whose promise has not settled yet, the reaction jobs waiting in the
    microtask queue, and the settled state of every promise handed out by
    [add].  A method call ends in a [Completion]: it returns normally, or it
    throws and leaves the state it had reached.

    Conventions of the model.
    - A task is an async function (as its JSDoc says): calling it returns a
      promise and never throws synchronously.  The environment decides when
      and how that promise settles (event [Settle]).
    - Callbacks registered with [onEmpty] are notifications: they return
      normally and do not call back into the queue.
    - [concurrency] and the priorities are integers; a priority that was not
      given is [None] (the JavaScript value undefined).
    - The class [QueueClearError] is not exported by the module, so no task
      can fail with an instance of it: errors raised by user code have the
      separate type [Thrown]. *)

From Stdlib Require Import ZArith Lia.
From stdpp Require Import base list sorting gmap.

Open Scope Z_scope.

(** ** Values, errors and promise states *)

(** Whatever user code may throw or reject with. *)
Inductive Thrown : Type :=
  | TypeError
  | UserError (n : nat).

(** [error instanceof QueueClearError] is a match on this type. *)
Inductive Error : Type :=
  | QueueClearError
  | Other (x : Thrown).

Inductive Value : Type :=
  | undefined
  | Val (v : nat).

(** A settled promise. *)
Inductive Settled : Type :=
  | Fulfilled (v : Value)
  | Rejected (e : Error).

(** How the promise returned by [task()] settles. *)
Inductive TaskResult : Type :=
  | Returns (v : Value)
  | Raises (x : Thrown).

Definition settledOf (r : TaskResult) : Settled :=
  match r with
  | Returns v => Fulfilled v
  | Raises x => Rejected (Other x)
  end.

(** The outcome of running a piece of synchronous code on a state. *)
Inductive Completion (A : Type) : Type :=
  | Normal (a : A)
  | Abrupt (e : Error) (a : A).
Arguments Normal {A} a.
Arguments Abrupt {A} e a.

Definition bind {A : Type} (c : Completion A) (k : A -> Completion A)
  : Completion A :=
  match c with
  | Normal a => k a
  | Abrupt e a => Abrupt e a
  end.

Notation "c >>> k" := (bind c k) (at level 50, left associativity).

Definition stateOf {A : Type} (c : Completion A) : A :=
  match c with
  | Normal a => a
  | Abrupt _ a => a
  end.

Definition completesNormally {A : Type} (c : Completion A) : Prop :=
  match c with
  | Normal _ => True
  | Abrupt _ _ => False
  end.

(** ** The data model *)

(** [{ task, priority, resolve, reject }]: [handle] names the promise whose
    [resolve] and [reject] functions the entry carries. *)
Record Entry : Type := mkEntry {
  task : nat;
  priority : option Z;
  handle : nat
}.

Record AsyncQueue : Type := mkQueue {
  concurrency : Z;
  autoStart : bool;
  queue : list Entry;
  running : Z;
  paused : bool;
  emptyCallbacks : list nat
}.

Record World : Type := mkWorld {
  this : AsyncQueue;
  (** entries taken by [_process] whose task promise is still pending *)
  executing : list Entry;
  (** promise of [handle] was settled; its catch/finally reactions wait *)
  microtasks : list (nat * Settled);
  (** settled state of the promise returned by [add] *)
  handles : gmap nat Settled;
  (** tasks in the order of their [task()] calls *)
  started : list nat;
  (** callbacks in the order of their invocations *)
  notified : list nat;
  nextHandle : nat
}.

Definition withThis (o : AsyncQueue) (w : World) : World :=
  mkWorld o (executing w) (microtasks w) (handles w) (started w) (notified w)
    (nextHandle w).

Definition withQueue (q : list Entry) (w : World) : World :=
  let o := this w in
  withThis (mkQueue (concurrency o) (autoStart o) q (running o) (paused o)
              (emptyCallbacks o)) w.

Definition withRunning (r : Z) (w : World) : World :=
  let o := this w in
  withThis (mkQueue (concurrency o) (autoStart o) (queue o) r (paused o)
              (emptyCallbacks o)) w.

Definition withPaused (b : bool) (w : World) : World :=
  let o := this w in
  withThis (mkQueue (concurrency o) (autoStart o) (queue o) (running o) b
              (emptyCallbacks o)) w.

Definition withEmptyCallbacks (cbs : list nat) (w : World) : World :=
  let o := this w in
  withThis (mkQueue (concurrency o) (autoStart o) (queue o) (running o)
              (paused o) cbs) w.

Definition withExecuting (ex : list Entry) (w : World) : World :=
  mkWorld (this w) ex (microtasks w) (handles w) (started w) (notified w)
    (nextHandle w).

Definition withMicrotasks (js : list (nat * Settled)) (w : World) : World :=
  mkWorld (this w) (executing w) js (handles w) (started w) (notified w)
    (nextHandle w).

Definition withHandles (hs : gmap nat Settled) (w : World) : World :=
  mkWorld (this w) (executing w) (microtasks w) hs (started w) (notified w)
    (nextHandle w).

Definition withStarted (l : list nat) (w : World) : World :=
  mkWorld (this w) (executing w) (microtasks w) (handles w) l (notified w)
    (nextHandle w).

Definition withNotified (l : list nat) (w : World) : World :=
  mkWorld (this w) (executing w) (microtasks w) (handles w) (started w) l
    (nextHandle w).

Definition withNextHandle (n : nat) (w : World) : World :=
  mkWorld (this w) (executing w) (microtasks w) (handles w) (started w)
    (notified w) n.

(** ** JavaScript primitives used by the class *)

(** [a >= b] on priorities: undefined converts to NaN, and every comparison
    with NaN is false. *)
Definition js_ge (a b : option Z) : bool :=
  match a, b with
  | Some x, Some y => y <=? x
  | _, _ => false
  end.

(** [Array.prototype.pop]: the last element and the shortened array, or
    undefined on an empty array. *)
Definition pop (q : list Entry) : option (Entry * list Entry) :=
  match last q with
  | Some e => Some (e, removelast q)
  | None => None
  end.

(** ** The constructor *)

Record Options : Type := mkOptions {
  opt_concurrency : option Z;
  opt_autoStart : option bool
}.

(** [options.concurrency || 1]: undefined and 0 are falsy. *)
Definition concurrencyOrDefault (c : option Z) : Z :=
  match c with
  | None => 1
  | Some 0 => 1
  | Some n => n
  end.

(** [options.autoStart !== false] *)
Definition autoStartOrDefault (a : option bool) : bool :=
  match a with
  | Some false => false
  | _ => true
  end.

Definition constructor (options : Options) : Completion World :=
  Normal (mkWorld
            (mkQueue (concurrencyOrDefault (opt_concurrency options))
               (autoStartOrDefault (opt_autoStart options))
               [] 0 false [])
            [] [] ∅ [] [] 0%nat).

(** ** Internal methods *)

(** The loop of [_insertWithPriority], with [n = i + 1].  Reading
    [.priority] of an index outside the array is a TypeError. *)
Fixpoint insertLoop (n : nat) (q : list Entry) : Completion (list Entry) :=
  match n with
  | O => Normal q
  | S i =>
      match q !! i, q !! S i with
      | Some a, Some b =>
          if js_ge (priority a) (priority b)
          then insertLoop i (<[S i := a]> (<[i := b]> q))
          else Normal q
      | _, _ => Abrupt (Other TypeError) q
      end
  end.

Definition _insertWithPriority (entry : Entry) (w : World) : Completion World :=
  let q := queue (this w) ++ [entry] in
  match insertLoop (length q - 1) q with
  | Normal q' => Normal (withQueue q' w)
  | Abrupt e q' => Abrupt e (withQueue q' w)
  end.

Definition _process (w : World) : Completion World :=
  let o := this w in
  if (concurrency o <=? running o) || paused o || (length (queue o) =? 0)%nat
  then Normal w
  else
    match pop (queue o) with
    | None => Abrupt (Other TypeError) w
    | Some (e, q') =>
        Normal (withStarted (started w ++ [task e])
                  (withExecuting (executing w ++ [e])
                     (withRunning (running o + 1) (withQueue q' w))))
    end.

Definition _checkEmpty (w : World) : Completion World :=
  let o := this w in
  if (length (queue o) =? 0)%nat && (running o =? 0)
  then Normal (withNotified (notified w ++ emptyCallbacks o) w)
  else Normal w.

(** ** The promise chain built by [add] *)

(** [.catch((error) => { if (!(error instanceof QueueClearError)) throw error; })] *)
Definition catchHandler (error : Error) : Settled :=
  match error with
  | QueueClearError => Fulfilled undefined
  | Other x => Rejected (Other x)
  end.

Definition afterCatch (s : Settled) : Settled :=
  match s with
  | Fulfilled v => Fulfilled v
  | Rejected e => catchHandler e
  end.

(** [.finally(() => { this.running--; this._checkEmpty(); this._process(); })] *)
Definition finallyHandler (w : World) : Completion World :=
  Normal (withRunning (running (this w) - 1) w) >>> _checkEmpty >>> _process.

(** A promise [p.finally(f)] takes the state of [p] when [f] returns, and
    rejects with what [f] throws otherwise. *)
Definition afterFinally (s : Settled) (c : Completion World) : Settled :=
  match c with
  | Normal _ => s
  | Abrupt e _ => Rejected e
  end.

(** ** Public methods *)

Definition add (t : nat) (p : option Z) (w : World) : Completion World :=
  let h := nextHandle w in
  let entry := mkEntry t p h in
  _insertWithPriority entry (withNextHandle (S h) w) >>>
  (fun w' => if autoStart (this w') then _process w' else Normal w').

Definition start (w : World) : Completion World :=
  _process (withPaused false w).

Definition pause (w : World) : Completion World :=
  Normal (withPaused true w).

Definition clearError (e : Entry) : nat * Settled :=
  (handle e, Rejected QueueClearError).

Definition clear (w : World) : Completion World :=
  Normal (withQueue []
            (withMicrotasks (microtasks w ++ map clearError (queue (this w))) w)).

Definition onEmpty (callback : nat) (w : World) : Completion World :=
  Normal (withEmptyCallbacks (emptyCallbacks (this w) ++ [callback]) w).

Definition size (w : World) : nat := length (queue (this w)).
Definition pending (w : World) : Z := running (this w).
Definition isPaused (w : World) : bool := paused (this w).

(** ** The environment: task settlement and the microtask queue *)

Fixpoint removeHandle (h : nat) (l : list Entry) : list Entry :=
  match l with
  | [] => []
  | e :: l' => if Nat.eqb (handle e) h then l' else e :: removeHandle h l'
  end.

Definition isExecuting (h : nat) (w : World) : bool :=
  existsb (fun e => Nat.eqb (handle e) h) (executing w).

(** [task().then(resolve).catch(reject)]: when the task's promise settles,
    the promise created in [add] is settled the same way and its reactions
    are queued. *)
Definition settle (h : nat) (r : TaskResult) (w : World) : World :=
  if isExecuting h w
  then withMicrotasks (microtasks w ++ [(h, settledOf r)])
         (withExecuting (removeHandle h (executing w)) w)
  else w.

(** Run the oldest reaction job: the catch handler, then the finally
    handler, then the promise returned by [add] settles. *)
Definition tick (w : World) : World :=
  match microtasks w with
  | [] => w
  | (h, s) :: rest =>
      let c := finallyHandler (withMicrotasks rest w) in
      let w' := stateOf c in
      withHandles (<[h := afterFinally (afterCatch s) c]> (handles w')) w'
  end.

Fixpoint ticks (n : nat) (w : World) : World :=
  match n with
  | O => w
  | S n' => ticks n' (tick w)
  end.

(** Run the microtask queue to exhaustion. *)
Definition flush (w : World) : World := ticks (length (microtasks w)) w.

Inductive Event : Type :=
  | Add (t : nat) (p : option Z)
  | Start
  | Pause
  | Clear
  | OnEmpty (callback : nat)
  | Settle (h : nat) (r : TaskResult)
  | Tick.

Definition call (ev : Event) (w : World) : Completion World :=
  match ev with
  | Add t p => add t p w
  | Start => start w
  | Pause => pause w
  | Clear => clear w
  | OnEmpty cb => onEmpty cb w
  | Settle h r => Normal (settle h r w)
  | Tick => Normal (tick w)
  end.

Definition step (w : World) (ev : Event) : World := stateOf (call ev w).

Definition run (evs : list Event) (w : World) : World := foldl step w evs.

(** ** Closed forms used in the statements *)

(** The loop of [_insertWithPriority] moves the new entry past [a] when
    [a.priority >= entry.priority]. *)
Definition passes (entry a : Entry) : bool :=
  js_ge (priority a) (priority entry).

(** Where the loop leaves the new entry: in front of the longest suffix of
    entries it passes. *)
Fixpoint priorityInsert (entry : Entry) (q : list Entry) : list Entry :=
  match q with
  | [] => [entry]
  | a :: q' =>
      if forallb (passes entry) q
      then entry :: q
      else a :: priorityInsert entry q'
  end.

(** The entries that consecutive calls [add(t, { priority: p })] create,
    the first one with handle [h]. *)
Fixpoint entriesFrom (h : nat) (p : Z) (ts : list nat) : list Entry :=
  match ts with
  | [] => []
  | t :: ts' => mkEntry t (Some p) h :: entriesFrom (S h) p ts'
  end.

(** The entries of the array in the order in which repeated [pop] calls
    return them. *)
Fixpoint popAll (fuel : nat) (q : list Entry) : list Entry :=
  match fuel with
  | O => []
  | S n =>
      match pop q with
      | None => []
      | Some (e, q') => e :: popAll n q'
      end
  end.

Definition dequeueOrder (q : list Entry) : list Entry := popAll (length q) q.

(** Events that neither submit nor discard work. *)
Definition schedulingOnly (ev : Event) : bool :=
  match ev with
  | Add _ _ | Clear => false
  | _ => true
  end.

(** The guard of [_process]. *)
Definition blocked (w : World) : bool :=
  (concurrency (this w) <=? running (this w)) || paused (this w)
  || (length (queue (this w)) =? 0)%nat.

(** Does the step fire the empty callbacks?  Only the finally handler calls
    [_checkEmpty], right after [this.running--]. *)
Definition firesEmpty (w : World) (ev : Event) : bool :=
  match ev, microtasks w with
  | Tick, _ :: _ =>
      (length (queue (this w)) =? 0)%nat && (running (this w) - 1 =? 0)
  | _, _ => false
  end.

(** The handles after the reaction jobs [js] have run, oldest first. *)
Definition settleAll (js : list (nat * Settled)) (hs : gmap nat Settled)
  : gmap nat Settled :=
  foldl (fun m j => <[j.1 := afterCatch j.2]> m) hs js.

(** An entry of priority [p] stops behind [a]: [a] is empty or ends in an
    entry the newcomer does not pass. *)
Definition barrier (p : Z) (a : list Entry) : Prop :=
  ∀ e s, priority e = Some p → forallb (passes e) s = true →
         priorityInsert e (a ++ s) = a ++ e :: s.

(** The order a stable priority queue keeps in the pending array: [a] sits
    below [b] when its priority is lower, or equal with [a] submitted later
    (handles are handed out in submission order). *)
Definition below (a b : Entry) : Prop :=
  match priority a, priority b with
  | Some pa, Some pb => pa < pb ∨ (pa = pb ∧ (handle b < handle a)%nat)
  | _, _ => False
  end.

Definition stable (n : nat) (q : list Entry) : Prop :=
  StronglySorted below q
  ∧ Forall (fun e => is_Some (priority e) ∧ (handle e < n)%nat) q.

Definition stableOrder (w : World) : Prop :=
  stable (nextHandle w) (queue (this w)).

(** Events other than a submission without a priority. *)
Definition explicitPriority (ev : Event) : bool :=
  match ev with
  | Add _ None => false
  | _ => true
  end.

(** ** Statements of the specification that the class does not meet *)

(** "clear() settles the handle of every pending entry with a queue-cleared
    rejection". *)
Definition clearRejectsPending (w : World) : Prop :=
  ∀ e, e ∈ queue (this w) →
       handles (flush (step w Clear)) !! handle e
       = Some (Rejected QueueClearError).

(** "a non-positive concurrency limit is rejected at construction time". *)
Definition rejectsNonPositiveLimit : Prop :=
  ∀ options n,
    opt_concurrency options = Some n → n <= 0 →
    ¬ completesNormally (constructor options).


(** ** Scenarios *)

(** [new AsyncQueue({ concurrency: n })] *)
Definition newQueue (n : Z) : World :=
  stateOf (constructor (mkOptions (Some n) None)).

(** [new AsyncQueue({ concurrency: n, autoStart: false })] *)
Definition newManualQueue (n : Z) : World :=
  stateOf (constructor (mkOptions (Some n) (Some false))).

(** One task running and one pending, limit 1. *)
Definition oneRunningOnePending : World :=
  run [Add 10%nat None; Add 11%nat None] (newQueue 1).

(** ... then [clear()], the reaction job of the discarded entry, the
    settlement of the running task and its reaction job. *)
Definition clearedThenSettled : World :=
  run [Clear; Tick; Settle 0%nat (Returns (Val 7%nat)); Tick]
    oneRunningOnePending.

(** ... or [clear()], the reaction job, and one more submission. *)
Definition clearedThenAdded : World :=
  run [Clear; Tick; Add 12%nat None] oneRunningOnePending.

(** A callback registered, one task running, one pending, then [clear()]. *)
Definition watchedBeforeClear : World :=
  run [OnEmpty 1%nat; Add 10%nat None; Add 11%nat None; Clear] (newQueue 1).

(** Three entries pending in a queue that was never started. *)
Definition threePending : World :=
  run [Add 10%nat None; Add 11%nat None; Add 12%nat None] (newManualQueue 1).

(** One task running, then a priority-5 task and a task with the given
    priority option are submitted; then the running task settles. *)
Definition afterFiveThen (p : option Z) : World :=
  run [Add 10%nat (Some 0); Add 11%nat (Some 5); Add 12%nat p;
       Settle 0%nat (Returns (Val 7%nat)); Tick] (newQueue 1).

(** One task running, then two tasks submitted without a priority; then the
    running task settles. *)
Definition afterTwoWithoutPriority : World :=
  run [Add 10%nat (Some 0); Add 11%nat None; Add 12%nat None;
       Settle 0%nat (Returns (Val 7%nat)); Tick] (newQueue 1).

(** Limit 1 and task 10 running; then a priority-5 task, a task with the
    given priority option and another priority-5 task are submitted. *)
Definition fivesAround (p : option Z) : World :=
  run [Add 10%nat (Some 0); Add 11%nat (Some 5); Add 12%nat p;
       Add 13%nat (Some 5)] (newQueue 1).

(** The executing task settles and its reaction job runs, three times over;
    [h1], [h2] and [h3] are the handles of the tasks executing in turn. *)
Definition settleInTurn (h1 h2 h3 : nat) (w : World) : World :=
  run [Settle h1 (Returns undefined); Tick;
       Settle h2 (Returns undefined); Tick;
       Settle h3 (Returns undefined); Tick] w.


(** One entry pending in a queue that was never started. *)
Definition onePending : World :=
  run [Add 10%nat (Some 0)] (newManualQueue 1).

(** One task running (limit 1); used to instantiate the general results. *)
Definition oneRunning : World :=
  run [Add 10%nat (Some 0)] (newQueue 1).

(** ** Notions for the properties of the whole class *)

Definition noClear (ev : Event) : bool :=
  match ev with
  | Clear => false
  | _ => true
  end.

Definition noPause (ev : Event) : bool :=
  match ev with
  | Pause => false
  | _ => true
  end.

Definition noStart (ev : Event) : bool :=
  match ev with
  | Start => false
  | _ => true
  end.

(** The promises handed out by [add] that have not settled yet: those of
    the pending entries, of the executing tasks, and those whose reaction
    job waits in the microtask queue. *)
Definition liveHandles (w : World) : list nat :=
  map handle (queue (this w)) ++ map handle (executing w)
  ++ map fst (microtasks w).

(** Every handle below [n] is live exactly once or settled, never both. *)
Definition trackedOf (live : list nat) (hs : gmap nat Settled) (n : nat)
  : Prop :=
  NoDup live
  ∧ (∀ h, h ∈ live → hs !! h = None)
  ∧ (∀ h, (h < n)%nat ↔ h ∈ live ∨ is_Some (hs !! h)).

Definition tracked (w : World) : Prop :=
  trackedOf (liveHandles w) (handles w) (nextHandle w).

(** The counter equals the number of started tasks whose finally handler
    has not run yet. *)
Definition counted (w : World) : Prop :=
  running (this w)
  = Z.of_nat (length (executing w) + length (microtasks w)).

(** An auto-start queue that is not paused keeps entries pending only while
    the counter is at the limit. *)
Definition conserving (w : World) : Prop :=
  autoStart (this w) = true
  ∧ paused (this w) = false
  ∧ (queue (this w) ≠ [] → concurrency (this w) <= running (this w)).

(** The callbacks that the [onEmpty] calls among the events register, in
    the order of the calls. *)
Definition registered (evs : list Event) : list nat :=
  flat_map (fun ev => match ev with OnEmpty cb => [cb] | _ => [] end) evs.

(** Limit 2, one task running, three more submitted with priorities 1, 5
    and 1; then the running task settles and its reaction job is due. *)
Definition mixedPriorities : World :=
  run [Add 10%nat (Some 0); Add 11%nat (Some 0); Add 12%nat (Some 1);
       Add 13%nat (Some 5); Add 14%nat (Some 1)] (newQueue 2).

(** * Properties *)

(** ** Arrays *)

Lemma pop_snoc (q : list Entry) (e : Entry) : pop (q ++ [e]) = Some (e, q).
Proof.
  unfold pop. rewrite last_snoc. by rewrite removelast_last.
Qed.

Lemma pop_nil : pop [] = None.
Proof. reflexivity. Qed.

Lemma snoc_of_nonempty (q : list Entry) :
  q ≠ [] → ∃ q' e, q = q' ++ [e].
Proof.
  destruct q as [|a q] using rev_ind; [done|]. intros _. by exists q, a.
Qed.

Lemma pop_None_nil (q : list Entry) : pop q = None → q = [].
Proof.
  destruct q as [|a q] using rev_ind; [done|].
  by rewrite pop_snoc.
Qed.

Lemma dequeueOrder_rev (q : list Entry) : dequeueOrder q = rev q.
Proof.
  unfold dequeueOrder.
  induction q as [|e q IH] using rev_ind; [done|].
  rewrite length_app, Nat.add_comm. cbn [length Nat.add popAll].
  rewrite pop_snoc, rev_unit. by rewrite IH.
Qed.

(** ** The insertion loop *)

Section Insertion.
  Context (entry : Entry).

Lemma priorityInsert_app (pre post : list Entry) :
  forallb (passes entry) post = true →
  priorityInsert entry (pre ++ post) = priorityInsert entry pre ++ post.
Proof.
  intros Hpost. induction pre as [|a pre IH]; cbn [app priorityInsert].
  - destruct post as [|b post]; [done|].
    cbn [priorityInsert]. by rewrite Hpost.
  - cbn [forallb]. rewrite forallb_app, Hpost, andb_true_r.
    destruct (passes entry a && forallb (passes entry) pre); [done|].
    by rewrite IH.
Qed.

Lemma priorityInsert_barrier (a : Entry) (pre : list Entry) :
  passes entry a = false →
  priorityInsert entry (pre ++ [a]) = pre ++ [a; entry].
Proof.
  intros Ha. induction pre as [|b pre IH]; cbn [app priorityInsert forallb].
  - by rewrite Ha.
  - rewrite forallb_app. cbn [forallb]. rewrite Ha.
    rewrite andb_false_l, !andb_false_r. by rewrite IH.
Qed.

Lemma insertLoop_closed (pre post : list Entry) :
  forallb (passes entry) post = true →
  insertLoop (length pre) (pre ++ entry :: post)
  = Normal (priorityInsert entry pre ++ post).
Proof.
  revert post. induction pre as [|a pre IH] using rev_ind; intros post Hpost.
  - reflexivity.
  - rewrite length_app, Nat.add_comm. cbn [length Nat.add insertLoop].
    rewrite <- app_assoc. cbn [app].
    rewrite (list_lookup_middle pre (entry :: post) a (length pre) eq_refl).
    replace (S (length pre)) with (length pre + 1)%nat by lia.
    rewrite lookup_app_r by lia.
    replace (length pre + 1 - length pre)%nat with 1%nat by lia.
    cbn [lookup list_lookup].
    fold (passes entry a). destruct (passes entry a) eqn:Ha.
    + rewrite insert_app_r_alt by lia.
      replace (length pre - length pre)%nat with 0%nat by lia.
      cbn [insert list_insert].
      rewrite insert_app_r_alt by lia.
      replace (length pre + 1 - length pre)%nat with 1%nat by lia.
      cbn [insert list_insert].
      rewrite IH by (cbn [forallb]; by rewrite Ha, Hpost).
      rewrite priorityInsert_app by (cbn; by rewrite Ha).
      by rewrite <- app_assoc.
    + rewrite priorityInsert_barrier by done.
      by rewrite <- app_assoc.
Qed.

Lemma insertLoop_push (q : list Entry) :
  insertLoop (length (q ++ [entry]) - 1) (q ++ [entry])
  = Normal (priorityInsert entry q).
Proof.
  rewrite length_app. cbn [length].
  replace (length q + 1 - 1)%nat with (length q) by lia.
  rewrite (insertLoop_closed q []) by done.
  by rewrite app_nil_r.
Qed.

Lemma insertWithPriority_closed (w : World) :
  _insertWithPriority entry w
  = Normal (withQueue (priorityInsert entry (queue (this w))) w).
Proof.
  unfold _insertWithPriority. by rewrite insertLoop_push.
Qed.

End Insertion.

(** ** The scheduling step *)

Lemma process_cases (w : World) :
  (blocked w = true ∧ _process w = Normal w)
  ∨ (blocked w = false ∧ ∃ q' e,
        queue (this w) = q' ++ [e] ∧
        _process w
        = Normal (withStarted (started w ++ [task e])
                    (withExecuting (executing w ++ [e])
                       (withRunning (running (this w) + 1) (withQueue q' w))))).
Proof.
  unfold _process, blocked.
  destruct ((concurrency (this w) <=? running (this w)) || paused (this w)
            || (length (queue (this w)) =? 0)%nat) eqn:Hg; [by left|right].
  split; [done|].
  apply orb_false_iff in Hg as [_ Hlen]. apply Nat.eqb_neq in Hlen.
  destruct (snoc_of_nonempty (queue (this w))) as (q' & e & Hq).
  { intros Hnil. by rewrite Hnil in Hlen. }
  exists q', e. split; [done|]. by rewrite Hq, pop_snoc.
Qed.

Ltac split_process w :=
  destruct (process_cases w) as [[_ ->]|(_ & ? & ? & _ & ->)].

Lemma process_normal (w : World) : completesNormally (_process w).
Proof.
  destruct (process_cases w) as [[_ ->]|(_ & q' & e & _ & ->)]; exact I.
Qed.

Lemma checkEmpty_cases (w : World) :
  _checkEmpty w
  = Normal (if (length (queue (this w)) =? 0)%nat && (running (this w) =? 0)
            then withNotified (notified w ++ emptyCallbacks (this w)) w
            else w).
Proof.
  unfold _checkEmpty.
  by destruct ((length (queue (this w)) =? 0)%nat && (running (this w) =? 0)).
Qed.

Ltac open_finally :=
  unfold finallyHandler; cbn [bind]; rewrite checkEmpty_cases; cbn [bind].

Lemma finallyHandler_normal (w : World) : completesNormally (finallyHandler w).
Proof.
  unfold finallyHandler. cbn [bind]. rewrite checkEmpty_cases. cbn [bind].
  apply process_normal.
Qed.

Lemma add_normal (t : nat) (p : option Z) (w : World) :
  completesNormally (add t p w).
Proof.
  unfold add. rewrite insertWithPriority_closed. cbn [bind].
  match goal with |- context [if ?b then _ else _] => destruct b end;
    [apply process_normal | exact I].
Qed.

Lemma call_normal (ev : Event) (w : World) : completesNormally (call ev w).
Proof.
  destruct ev; cbn [call]; try exact I.
  - apply add_normal.
  - apply process_normal.
Qed.

(** Every call of [_process] takes at most the tail of the pending array and
    starts it. *)
Lemma process_pops (w : World) :
  ∃ q2, queue (this w) = queue (this (stateOf (_process w))) ++ q2
        ∧ started (stateOf (_process w)) = started w ++ map task (rev q2).
Proof.
  destruct (process_cases w) as [[_ ->]|(_ & q' & e & Hq & ->)].
  - exists []. cbn. by rewrite !app_nil_r.
  - exists [e]. cbn. by rewrite Hq.
Qed.

Lemma finallyHandler_pops (w : World) :
  ∃ q2, queue (this w) = queue (this (stateOf (finallyHandler w))) ++ q2
        ∧ started (stateOf (finallyHandler w)) = started w ++ map task (rev q2).
Proof.
  unfold finallyHandler. cbn [bind]. rewrite checkEmpty_cases. cbn [bind].
  match goal with |- context [_process ?x] =>
    destruct (process_pops x) as (q2 & Hq & Hs) end.
  exists q2. split.
  - rewrite <- Hq. by destruct (_ && _).
  - rewrite Hs. by destruct (_ && _).
Qed.

Lemma sched_step (w : World) (ev : Event) :
  schedulingOnly ev = true →
  ∃ q2, queue (this w) = queue (this (step w ev)) ++ q2
        ∧ started (step w ev) = started w ++ map task (rev q2).
Proof.
  intros Hev. unfold step.
  destruct ev as [t p| | | |cb|h r|]; try discriminate Hev; cbn [call].
  - unfold start. destruct (process_pops (withPaused false w)) as (q2 & Hq & Hs).
    by exists q2.
  - exists []. cbn. by rewrite !app_nil_r.
  - exists []. cbn. by rewrite !app_nil_r.
  - exists []. unfold settle. destruct (isExecuting h w); cbn; by rewrite !app_nil_r.
  - unfold tick. destruct (microtasks w) as [|[h s] rest] eqn:Hm.
    + exists []. cbn. by rewrite !app_nil_r.
    + destruct (finallyHandler_pops (withMicrotasks rest w)) as (q2 & Hq & Hs).
      by exists q2.
Qed.

Lemma sched_run (evs : list Event) (w : World) :
  forallb schedulingOnly evs = true →
  ∃ q2, queue (this w) = queue (this (run evs w)) ++ q2
        ∧ started (run evs w) = started w ++ map task (rev q2).
Proof.
  revert w. induction evs as [|ev evs IH]; intros w Hevs.
  - exists []. cbn. by rewrite !app_nil_r.
  - cbn [forallb] in Hevs. apply andb_true_iff in Hevs as [Hev Hevs].
    destruct (sched_step w ev Hev) as (q2 & Hq & Hs).
    destruct (IH (step w ev) Hevs) as (q3 & Hq' & Hs').
    exists (q3 ++ q2). unfold run in *. cbn [foldl]. split.
    + rewrite Hq, Hq'. by rewrite app_assoc.
    + rewrite Hs', Hs, rev_app_distr, map_app. by rewrite app_assoc.
Qed.

(** ** Submissions while the capacity is used up *)

Lemma add_saturated (t : nat) (p : option Z) (w : World) :
  concurrency (this w) <= running (this w) →
  step w (Add t p)
  = withQueue (priorityInsert (mkEntry t p (nextHandle w)) (queue (this w)))
      (withNextHandle (S (nextHandle w)) w).
Proof.
  intros Hsat. unfold step. cbn [call]. unfold add.
  rewrite insertWithPriority_closed. cbn [bind].
  match goal with |- context [if ?b then _ else _] => destruct b end; [|done].
  match goal with |- context [_process ?x] =>
    destruct (process_cases x) as [[_ ->]|[Hb _]] end; [done|].
  unfold blocked in Hb. cbn in Hb.
  apply Z.leb_le in Hsat. by rewrite Hsat in Hb.
Qed.

Section SamePriority.
  Context (p : Z).

Lemma barrier_nil : barrier p [].
Proof.
  intros e s _ Hs. destruct s as [|b s]; [done|].
  cbn [app priorityInsert]. by rewrite Hs.
Qed.

Lemma barrier_snoc (a : list Entry) (b : Entry) :
  js_ge (priority b) (Some p) = false → barrier p (a ++ [b]).
Proof.
  intros Hb e s He Hs. rewrite priorityInsert_app by done.
  rewrite priorityInsert_barrier; [by rewrite <- !app_assoc|].
  unfold passes. by rewrite He.
Qed.

Lemma barrier_split (q : list Entry) :
  ∃ a s, q = a ++ s ∧ barrier p a
         ∧ forallb (fun x => js_ge (priority x) (Some p)) s = true.
Proof.
  induction q as [|b q IH] using rev_ind.
  - exists [], []. split; [done|]. split; [apply barrier_nil|done].
  - destruct (js_ge (priority b) (Some p)) eqn:Hb.
    + destruct IH as (a & s & -> & Ha & Hs). exists a, (s ++ [b]).
      split; [by rewrite app_assoc|]. split; [done|].
      rewrite forallb_app, Hs. cbn. by rewrite Hb.
    + exists (q ++ [b]), []. split; [by rewrite app_nil_r|].
      split; [by apply barrier_snoc|done].
Qed.

Lemma passes_same_priority (e : Entry) (s : list Entry) :
  priority e = Some p →
  forallb (passes e) s = forallb (fun x => js_ge (priority x) (Some p)) s.
Proof.
  intros He. induction s as [|x s IH]; [done|].
  cbn [forallb]. rewrite IH. unfold passes. by rewrite He.
Qed.

Lemma run_adds_saturated (ts : list nat) (w : World) (a s : list Entry) :
  concurrency (this w) <= running (this w) →
  queue (this w) = a ++ s →
  barrier p a →
  forallb (fun x => js_ge (priority x) (Some p)) s = true →
  let w' := run (map (fun t => Add t (Some p)) ts) w in
  queue (this w') = a ++ rev (entriesFrom (nextHandle w) p ts) ++ s
  ∧ started w' = started w.
Proof.
  revert w s. induction ts as [|t ts IH]; intros w s Hsat Hq Ha Hs; cbn zeta.
  - by cbn.
  - unfold run. cbn [map foldl]. rewrite add_saturated by done.
    set (e := mkEntry t (Some p) (nextHandle w)).
    set (w1 := withQueue _ _).
    assert (Hq1 : queue (this w1) = a ++ e :: s).
    { subst w1. cbn. rewrite Hq. apply Ha; [done|].
      by rewrite passes_same_priority. }
    destruct (IH w1 (e :: s)) as [IHq IHs]; [done|done|done| |].
    { cbn [forallb]. rewrite Hs. cbn. by rewrite Z.leb_refl. }
    unfold run in IHq, IHs. rewrite IHq, IHs. split; [|done].
    cbn [entriesFrom rev]. subst w1. cbn [nextHandle withQueue withThis withNextHandle].
    by rewrite <- !app_assoc.
Qed.

End SamePriority.

(** ** Stable order under explicit priorities *)

Lemma forallb_Forall_true {A : Type} (f : A → bool) (l : list A) :
  forallb f l = true ↔ Forall (fun x => f x = true) l.
Proof.
  induction l as [|x l IH]; cbn [forallb].
  - split; [by constructor|done].
  - rewrite andb_true_iff, Forall_cons, IH. done.
Qed.

Lemma priorityInsert_Forall (P : Entry → Prop) (entry : Entry) (q : list Entry) :
  Forall P (priorityInsert entry q) ↔ P entry ∧ Forall P q.
Proof.
  induction q as [|x q IH]; cbn [priorityInsert].
  - rewrite Forall_singleton. split; [by intros ?|by intros [? _]].
  - destruct (forallb (passes entry) (x :: q)).
    + by rewrite Forall_cons.
    + rewrite !Forall_cons, IH. tauto.
Qed.

Lemma passes_below (entry y : Entry) (p : Z) :
  priority entry = Some p → (handle y < handle entry)%nat →
  passes entry y = true → below entry y.
Proof.
  intros Hp Hh Hy. unfold passes, below in *. rewrite Hp in *.
  destruct (priority y) as [py|]; [|done]. cbn in Hy.
  apply Z.leb_le in Hy. lia.
Qed.

Lemma below_passes (entry x y : Entry) (p px : Z) :
  priority entry = Some p → priority x = Some px → p <= px →
  below x y → passes entry y = true.
Proof.
  intros Hp Hx Hle Hxy. unfold passes, below in *. rewrite Hp, Hx in *.
  destruct (priority y) as [py|]; [|done]. cbn. apply Z.leb_le. lia.
Qed.

Lemma priorityInsert_sorted (entry : Entry) (p : Z) (q : list Entry) :
  priority entry = Some p →
  StronglySorted below q →
  Forall (fun x => is_Some (priority x) ∧ (handle x < handle entry)%nat) q →
  StronglySorted below (priorityInsert entry q).
Proof.
  intros Hp. induction q as [|x q IH]; intros Hs Hq; cbn [priorityInsert].
  - apply StronglySorted_cons. split; by constructor.
  - apply StronglySorted_cons in Hs as [Hx Hs].
    apply Forall_cons in Hq as [[[px Hpx] Hhx] Hq].
    destruct (forallb (passes entry) (x :: q)) eqn:Hall.
    + apply StronglySorted_cons. split; [|by apply StronglySorted_cons].
      apply forallb_Forall_true in Hall.
      apply Forall_cons in Hall as [Hax Haq].
      apply Forall_cons. split; [by apply (passes_below entry x p)|].
      rewrite Forall_forall in Haq, Hq |- *. intros y Hy.
      apply (passes_below entry y p); [done|by apply Hq|by apply Haq].
    + apply StronglySorted_cons. split; [|by apply IH].
      apply priorityInsert_Forall. split; [|done].
      unfold below. rewrite Hpx, Hp. left.
      destruct (Z.lt_ge_cases px p) as [Hlt|Hge]; [done|exfalso].
      cbn [forallb] in Hall. apply andb_false_iff in Hall as [Hall|Hall].
      * unfold passes in Hall. rewrite Hpx, Hp in Hall. cbn in Hall.
        apply Z.leb_gt in Hall. lia.
      * assert (Htrue : forallb (passes entry) q = true); [|congruence].
        apply forallb_Forall_true. rewrite Forall_forall in Hx |- *.
        intros y Hy. by apply (below_passes entry x y p px), Hx.
Qed.

Lemma stable_insert (n : nat) (t : nat) (p : Z) (q : list Entry) :
  stable n q → stable (S n) (priorityInsert (mkEntry t (Some p) n) q).
Proof.
  intros [Hs Hq]. split.
  - by apply (priorityInsert_sorted _ p).
  - apply priorityInsert_Forall. split; [cbn; split; [by eexists|lia]|].
    eapply Forall_impl; [exact Hq|]. cbn. intros x [? ?]. split; [done|lia].
Qed.

Lemma stable_prefix (n : nat) (q1 q2 : list Entry) :
  stable n (q1 ++ q2) → stable n q1.
Proof.
  intros [Hs Hq]. split.
  - by apply StronglySorted_app_1_l in Hs.
  - by apply Forall_app in Hq as [? _].
Qed.

Lemma process_nextHandle (w : World) :
  nextHandle (stateOf (_process w)) = nextHandle w.
Proof. split_process w; reflexivity. Qed.

Lemma process_stable (w : World) :
  stableOrder w → stableOrder (stateOf (_process w)).
Proof.
  unfold stableOrder. rewrite process_nextHandle.
  destruct (process_pops w) as (q2 & Hq & _). rewrite Hq at 1.
  apply stable_prefix.
Qed.

Lemma step_stable (w : World) (ev : Event) :
  explicitPriority ev = true → stableOrder w → stableOrder (step w ev).
Proof.
  intros Hev Hw. unfold step.
  destruct ev as [t [p|]| | | |cb|h r|]; try discriminate Hev;
    cbn [call stateOf].
  - unfold add. rewrite insertWithPriority_closed. cbn [bind].
    assert (Hins : stableOrder
              (withQueue
                 (priorityInsert (mkEntry t (Some p) (nextHandle w))
                    (queue (this (withNextHandle (S (nextHandle w)) w))))
                 (withNextHandle (S (nextHandle w)) w)))
      by (by apply stable_insert).
    match goal with |- context [if ?b then _ else _] => destruct b end;
      [by apply process_stable|done].
  - unfold start. by apply (process_stable (withPaused false w)).
  - done.
  - split; by constructor.
  - done.
  - unfold settle. by destruct (isExecuting h w).
  - unfold tick. destruct (microtasks w) as [|[h s] rest]; [done|].
    cbn zeta. open_finally.
    match goal with |- context [_process ?y] =>
      pose proof (process_stable y) as Hp end.
    destruct (_ && _); by apply Hp.
Qed.

Lemma run_stable (evs : list Event) (w : World) :
  forallb explicitPriority evs = true → stableOrder w →
  stableOrder (run evs w).
Proof.
  revert w. induction evs as [|ev evs IH]; intros w Hevs Hw; [done|].
  cbn [forallb] in Hevs. apply andb_true_iff in Hevs as [Hev Hevs].
  unfold run. cbn [foldl]. apply IH; [done|]. by apply step_stable.
Qed.

Lemma stable_arrival_order (n : nat) (q : list Entry) (a b : Entry) :
  stable n q → a ∈ q → b ∈ q →
  priority a = priority b → (handle a < handle b)%nat →
  ∃ l1 l2 l3, dequeueOrder q = l1 ++ a :: l2 ++ b :: l3.
Proof.
  intros [Hs Hq] Ha Hb Hp Hh.
  assert (Hnot : ¬ below a b).
  { unfold below. rewrite Hp. destruct (priority b); [lia|tauto]. }
  apply list_elem_of_split in Hb as (m1 & m2 & ->).
  apply elem_of_app in Ha as [Ha|Ha].
  - exfalso. apply Hnot.
    apply (StronglySorted_app_1_elem_of below m1 (b :: m2)); [done|done|].
    by apply elem_of_cons; left.
  - apply elem_of_cons in Ha as [->|Ha]; [lia|].
    apply list_elem_of_split in Ha as (m3 & m4 & ->).
    exists (rev m4), (rev m3), (rev m1). rewrite dequeueOrder_rev.
    rewrite rev_app_distr. cbn [rev]. rewrite rev_app_distr. cbn [rev].
    by rewrite <- !app_assoc.
Qed.

Lemma task_entriesFrom (h : nat) (p : Z) (ts : list nat) :
  map task (entriesFrom h p ts) = ts.
Proof.
  revert h. induction ts as [|t ts IH]; intros h; [done|].
  cbn [entriesFrom map task]. by rewrite IH.
Qed.

(** Tasks submitted one after the other, nothing in between, with the same
    numeric priority [p] while the running count has reached the
    concurrency limit: they are not started by their submission, sit next
    to each other in the pending array and are popped in submission order;
    under the settlements, reaction jobs, start and pause calls that follow,
    the tasks started are the entries that have left the array, in pop
    order. *)
Lemma saturated_submissions_fifo (w : World) (p : Z) (ts : list nat) :
  concurrency (this w) <= running (this w) →
  ∃ a s,
    queue (this w) = a ++ s ∧
    let w' := run (map (fun t => Add t (Some p)) ts) w in
    let new := entriesFrom (nextHandle w) p ts in
    map task new = ts ∧
    queue (this w') = a ++ rev new ++ s ∧
    started w' = started w ∧
    dequeueOrder (queue (this w')) = rev s ++ new ++ rev a ∧
    ∀ evs, forallb schedulingOnly evs = true →
      started (run evs w')
      = started w
        ++ map task (take (size w' - size (run evs w'))
                       (rev s ++ new ++ rev a)).
Proof.
  intros Hsat.
  destruct (barrier_split p (queue (this w))) as (a & s & Hq & Ha & Hs).
  exists a, s. split; [done|]. cbn zeta.
  destruct (run_adds_saturated p ts w a s Hsat Hq Ha Hs) as [Hq' Hst].
  cbn zeta in Hq', Hst.
  assert (Hrev : rev (a ++ rev (entriesFrom (nextHandle w) p ts) ++ s)
                 = rev s ++ entriesFrom (nextHandle w) p ts ++ rev a).
  { rewrite !rev_app_distr, rev_involutive. by rewrite <- app_assoc. }
  split; [apply task_entriesFrom|]. split; [done|]. split; [done|]. split.
  - by rewrite dequeueOrder_rev, Hq', Hrev.
  - intros evs Hevs.
    destruct (sched_run evs (run (map (fun t => Add t (Some p)) ts) w) Hevs)
      as (q2 & Hsplit & Hstarted).
    rewrite Hstarted, Hst. f_equal. f_equal.
    rewrite <- Hrev, <- Hq'. unfold size. rewrite Hsplit at 1 2.
    rewrite rev_app_distr, length_app.
    rewrite take_app_length'; [done|]. rewrite length_rev. lia.
Qed.

Lemma constructor_stable (options : Options) :
  stableOrder (stateOf (constructor options)).
Proof. split; by constructor. Qed.

(** As long as every submission names its priority, two pending entries of
    equal priority are popped in the order of their submission, whatever
    else was submitted in between. *)
Lemma explicit_priorities_keep_arrival_order (options : Options)
    (evs : list Event) (a b : Entry) :
  forallb explicitPriority evs = true →
  let w := run evs (stateOf (constructor options)) in
  a ∈ queue (this w) → b ∈ queue (this w) →
  priority a = priority b → (handle a < handle b)%nat →
  ∃ l1 l2 l3, dequeueOrder (queue (this w)) = l1 ++ a :: l2 ++ b :: l3.
Proof.
  intros Hevs w. apply (stable_arrival_order (nextHandle w)).
  apply run_stable; [done|apply constructor_stable].
Qed.

(** C4, at the failing input.  Limit 1 and one task running, so every
    submission finds the capacity used.  Tasks 11 and 13 are submitted with
    priority 5 and task 12, without a priority, between them.  The entry of
    task 12 carries undefined and stays at the tail; [5 >= undefined] is
    false, so the entry of task 13 does not move past it and stays behind
    task 11 in pop order: the array is 11, 12, 13 and the tasks start in
    the order 13, 12, 11 as the capacity frees.  With task 12 submitted
    with priority 0 the array is 12, 13, 11 and the tasks start in the
    order 11, 13, 12. *)
Theorem equal_priorities_reordered_by_missing_priority :
  concurrency (this (fivesAround None)) = 1
  ∧ running (this (fivesAround None)) = 1
  ∧ started (fivesAround None) = [10]%nat
  ∧ map task (queue (this (fivesAround None))) = [11; 12; 13]%nat
  ∧ map task (dequeueOrder (queue (this (fivesAround None))))
    = [13; 12; 11]%nat
  ∧ started (settleInTurn 0 3 2 (fivesAround None)) = [10; 13; 12; 11]%nat
  ∧ map task (queue (this (fivesAround (Some 0)))) = [12; 13; 11]%nat
  ∧ started (settleInTurn 0 1 3 (fivesAround (Some 0)))
    = [10; 11; 13; 12]%nat.
Proof. repeat split. Qed.

(** ** What the scheduling step and the finally handler leave alone *)

Lemma process_microtasks (w : World) :
  microtasks (stateOf (_process w)) = microtasks w.
Proof. split_process w; reflexivity. Qed.

Lemma process_handles (w : World) :
  handles (stateOf (_process w)) = handles w.
Proof. split_process w; reflexivity. Qed.

Lemma process_notified (w : World) :
  notified (stateOf (_process w)) = notified w.
Proof. split_process w; reflexivity. Qed.

Lemma process_concurrency (w : World) :
  concurrency (this (stateOf (_process w))) = concurrency (this w).
Proof. split_process w; reflexivity. Qed.


Lemma finallyHandler_microtasks (w : World) :
  microtasks (stateOf (finallyHandler w)) = microtasks w.
Proof. open_finally. rewrite process_microtasks. by destruct (_ && _). Qed.

Lemma finallyHandler_handles (w : World) :
  handles (stateOf (finallyHandler w)) = handles w.
Proof. open_finally. rewrite process_handles. by destruct (_ && _). Qed.

Lemma afterFinally_normal (s : Settled) (w : World) :
  afterFinally s (finallyHandler w) = s.
Proof.
  pose proof (finallyHandler_normal w) as Hn.
  by destruct (finallyHandler w).
Qed.

(** ** Reaction jobs and the promise returned by [add] *)

Lemma tick_job (w : World) (h : nat) (s : Settled) (rest : list (nat * Settled)) :
  microtasks w = (h, s) :: rest →
  microtasks (tick w) = rest
  ∧ handles (tick w) = <[h := afterCatch s]> (handles w).
Proof.
  intros Hm. unfold tick. rewrite Hm. cbn zeta.
  rewrite afterFinally_normal. cbn [microtasks handles withHandles].
  by rewrite finallyHandler_microtasks, finallyHandler_handles.
Qed.

Lemma ticks_handles (js : list (nat * Settled)) (w : World) :
  microtasks w = js →
  handles (ticks (length js) w) = settleAll js (handles w).
Proof.
  revert w. induction js as [|[h s] js IH]; intros w Hm; [done|].
  destruct (tick_job w h s js Hm) as [Hm' Hh].
  cbn [length ticks]. rewrite (IH (tick w) Hm'), Hh. reflexivity.
Qed.

Lemma flush_handles (w : World) :
  handles (flush w) = settleAll (microtasks w) (handles w).
Proof. unfold flush. by apply ticks_handles. Qed.

Lemma settleAll_snoc (js : list (nat * Settled)) (h : nat) (s : Settled)
    (hs : gmap nat Settled) :
  settleAll (js ++ [(h, s)]) hs = <[h := afterCatch s]> (settleAll js hs).
Proof. unfold settleAll. by rewrite foldl_app. Qed.

Lemma settleAll_cleared (js : list (nat * Settled)) (q : list Entry)
    (hs : gmap nat Settled) (e : Entry) :
  e ∈ q →
  settleAll (js ++ map clearError q) hs !! handle e = Some (Fulfilled undefined).
Proof.
  induction q as [|e' q IH] using rev_ind; intros He.
  - by apply elem_of_nil in He.
  - rewrite map_app, app_assoc. cbn [map]. unfold clearError at 2.
    rewrite settleAll_snoc. cbn [afterCatch catchHandler].
    destruct (decide (handle e' = handle e)) as [->|Hne].
    + by rewrite lookup_insert_eq.
    + rewrite lookup_insert_ne by done. apply IH.
      apply elem_of_app in He as [He|He]; [done|].
      apply list_elem_of_singleton in He. by subst.
Qed.

Lemma afterCatch_not_cleared (s : Settled) :
  afterCatch s ≠ Rejected QueueClearError.
Proof. by destruct s as [v|[|x]]. Qed.

Lemma add_handles (t : nat) (p : option Z) (w : World) :
  handles (stateOf (add t p w)) = handles w.
Proof.
  unfold add. rewrite insertWithPriority_closed. cbn [bind].
  match goal with |- context [if ?b then _ else _] => destruct b end; [|done].
  by rewrite process_handles.
Qed.

Lemma step_handles (w : World) (ev : Event) :
  handles (step w ev) = handles w
  ∨ ∃ h s, handles (step w ev) = <[h := afterCatch s]> (handles w).
Proof.
  unfold step. destruct ev as [t p| | | |cb|h r|]; cbn [call stateOf].
  - left. apply add_handles.
  - left. unfold start. by rewrite process_handles.
  - by left.
  - by left.
  - by left.
  - left. unfold settle. by destruct (isExecuting h w).
  - destruct (microtasks w) as [|[h s] rest] eqn:Hm.
    + left. unfold tick. by rewrite Hm.
    + right. exists h, s. by apply (tick_job w h s rest).
Qed.

Lemma run_snoc (evs : list Event) (ev : Event) (w : World) :
  run (evs ++ [ev]) w = step (run evs w) ev.
Proof. unfold run. by rewrite foldl_app. Qed.

Lemma handles_never_cleared (evs : list Event) (w : World) (h : nat) :
  (∀ h', handles w !! h' ≠ Some (Rejected QueueClearError)) →
  handles (run evs w) !! h ≠ Some (Rejected QueueClearError).
Proof.
  intros Hw. revert h. induction evs as [|ev evs IH] using rev_ind; intros h.
  - apply Hw.
  - rewrite run_snoc.
    destruct (step_handles (run evs w) ev) as [->|(h' & s & ->)]; [apply IH|].
    destruct (decide (h' = h)) as [->|Hne].
    + rewrite lookup_insert_eq. intros [= Heq].
      by apply (afterCatch_not_cleared s).
    + rewrite lookup_insert_ne by done. apply IH.
Qed.

Lemma process_starts (w : World) :
  blocked w = false →
  ∃ q' e,
    queue (this w) = q' ++ [e] ∧
    _process w
    = Normal (withStarted (started w ++ [task e])
                (withExecuting (executing w ++ [e])
                   (withRunning (running (this w) + 1) (withQueue q' w)))).
Proof.
  intros Hb. destruct (process_cases w) as [[Hb' _]|[_ H]]; [congruence|done].
Qed.

(** A reaction job that runs while the queue is not paused and whose
    decrement leaves the counter below the limit starts the tail of the
    pending array. *)
Lemma reaction_job_starts_tail (w : World) (j : nat * Settled)
    (rest : list (nat * Settled)) (q' : list Entry) (e : Entry) :
  microtasks w = j :: rest →
  paused (this w) = false →
  running (this w) - 1 < concurrency (this w) →
  queue (this w) = q' ++ [e] →
  queue (this (tick w)) = q'
  ∧ started (tick w) = started w ++ [task e]
  ∧ executing (tick w) = executing w ++ [e].
Proof.
  intros Hm Hp Hr Hq. destruct j as [h s].
  assert (Hlen : (length (queue (this w)) =? 0)%nat = false).
  { rewrite Hq, length_app. cbn. apply Nat.eqb_neq. lia. }
  unfold tick. rewrite Hm. cbn zeta. open_finally.
  cbn [this withRunning withThis withMicrotasks queue running].
  rewrite Hlen. cbn [andb].
  match goal with |- context [_process ?y] =>
    destruct (process_starts y) as (q'' & e' & Hq' & ->) end.
  { unfold blocked. cbn. rewrite Hlen, Hp.
    replace (concurrency (this w) <=? running (this w) - 1) with false;
      [done|]. symmetry. by apply Z.leb_gt. }
  cbn in Hq'. rewrite Hq in Hq'. apply app_inj_tail in Hq' as [<- <-].
  by cbn.
Qed.

Lemma settle_executing (w : World) (h : nat) (r : TaskResult) :
  isExecuting h w = true →
  microtasks (settle h r w) = microtasks w ++ [(h, settledOf r)]
  ∧ handles (settle h r w) = handles w
  ∧ this (settle h r w) = this w.
Proof. intros He. unfold settle. by rewrite He. Qed.

(** C7. A task whose promise rejects with [x] has exactly [x] as the
    rejection of the promise that [add] returned for it; every other
    promise ends as it would have without that failure; the finally handler
    (decrement, empty check, scheduling step) never throws; the reaction job
    of the failure does the same bookkeeping as that of a success, and it
    starts the tail of the pending array whenever the queue is not paused
    and the decrement has freed capacity. *)
Theorem task_failure_is_local (w : World) (h : nat) (x : Thrown) :
  isExecuting h w = true →
  let w1 := step w (Settle h (Raises x)) in
  handles (flush w1) !! h = Some (Rejected (Other x))
  ∧ (∀ h', h' ≠ h → handles (flush w1) !! h' = handles (flush w) !! h')
  ∧ (∀ w', completesNormally (finallyHandler w'))
  ∧ (∀ w2 rest,
       microtasks w2 = (h, Rejected (Other x)) :: rest →
       handles (tick w2) = <[h := Rejected (Other x)]> (handles w2)
       ∧ (∀ v,
            let w2' := tick (withMicrotasks ((h, Fulfilled v) :: rest) w2) in
            this (tick w2) = this w2'
            ∧ executing (tick w2) = executing w2'
            ∧ started (tick w2) = started w2'
            ∧ notified (tick w2) = notified w2')
       ∧ (queue (this w2) ≠ [] →
          paused (this w2) = false →
          running (this w2) - 1 < concurrency (this w2) →
          ∃ q' e,
            queue (this w2) = q' ++ [e]
            ∧ queue (this (tick w2)) = q'
            ∧ started (tick w2) = started w2 ++ [task e]
            ∧ executing (tick w2) = executing w2 ++ [e])).
Proof.
  intros Hex. cbn zeta. unfold step. cbn [call stateOf].
  destruct (settle_executing w h (Raises x) Hex) as (Hm & Hh & _).
  split; [|split; [|split; [|]]].
  - rewrite flush_handles, Hm, settleAll_snoc. cbn. by rewrite lookup_insert_eq.
  - intros h' Hne. rewrite !flush_handles, Hm, Hh, settleAll_snoc.
    by rewrite lookup_insert_ne.
  - apply finallyHandler_normal.
  - intros w2 rest Hm2. split; [|split].
    + by destruct (tick_job w2 h _ rest Hm2) as [_ ->].
    + intros v. unfold tick. rewrite Hm2. by cbn.
    + intros Hq Hp Hr.
      assert (Hlen : (length (queue (this w2)) =? 0)%nat = false).
      { apply Nat.eqb_neq. by destruct (queue (this w2)). }
      unfold tick. rewrite Hm2. cbn zeta. open_finally.
      cbn [this withRunning withThis withMicrotasks queue running].
      rewrite Hlen. cbn [andb].
      match goal with |- context [_process ?y] =>
        destruct (process_starts y) as (q' & e & Hq' & ->) end.
      { unfold blocked. cbn. rewrite Hlen, Hp.
        replace (concurrency (this w2) <=? running (this w2) - 1) with false;
          [done|]. symmetry. by apply Z.leb_gt. }
      exists q', e. cbn in Hq'. by cbn.
Qed.

Lemma task_failure_is_local_witness :
  isExecuting 0 oneRunning = true
  ∧ handles (flush (step oneRunning (Settle 0%nat (Raises (UserError 3)))))
      !! 0%nat
    = Some (Rejected (Other (UserError 3))).
Proof.
  split; [reflexivity|].
  apply (task_failure_is_local oneRunning 0%nat (UserError 3)). reflexivity.
Defined.

(** C10. The promise returned by [add] never rejects with the queue-cleared
    error: [clear()] rejects the promise created in [add] with a
    [QueueClearError], the catch handler of the chain turns that into a
    fulfilment with undefined, and this is how the caller's promise settles
    once the reactions have run; in no run of the queue does a promise
    returned by [add] reject with [QueueClearError]. *)
Theorem cleared_handle_fulfils_undefined (w : World) (e : Entry) :
  e ∈ queue (this w) →
  (handle e, Rejected QueueClearError) ∈ microtasks (step w Clear)
  ∧ afterCatch (Rejected QueueClearError) = Fulfilled undefined
  ∧ handles (flush (step w Clear)) !! handle e = Some (Fulfilled undefined)
  ∧ ∀ options evs h,
      handles (run evs (stateOf (constructor options))) !! h
      ≠ Some (Rejected QueueClearError).
Proof.
  intros He. split; [|split; [done|split]].
  - cbn. apply elem_of_app. right.
    change (clearError e ∈ map clearError (queue (this w))).
    apply list_elem_of_In, in_map, list_elem_of_In, He.
  - rewrite flush_handles. cbn. by apply settleAll_cleared.
  - intros options evs h. apply handles_never_cleared.
    intros h'. cbn. by rewrite lookup_empty.
Qed.

Lemma cleared_handle_fulfils_undefined_witness :
  mkEntry 10 (Some 0) 0 ∈ queue (this onePending)
  ∧ handles (flush (step onePending Clear)) !! 0%nat = Some (Fulfilled undefined).
Proof.
  assert (He : mkEntry 10 (Some 0) 0 ∈ queue (this onePending))
    by (vm_compute; constructor).
  split; [exact He|].
  exact (proj1 (proj2 (proj2
           (cleared_handle_fulfils_undefined onePending _ He)))).
Defined.

(** C2, counterexample. With one entry pending, [clear()] does not leave the
    caller's promise rejected with the queue-cleared error. *)
Lemma clear_does_not_reject_handle : ¬ clearRejectsPending onePending.
Proof.
  intros H.
  assert (He : mkEntry 10 (Some 0) 0 ∈ queue (this onePending))
    by (vm_compute; constructor).
  specialize (H _ He). vm_compute in H. discriminate H.
Qed.

(** C2, as the class has it. [clear()] returns normally, rejects the promise
    created in [add] for every pending entry with a [QueueClearError]
    (oldest index first), empties the pending array and leaves the executing
    tasks and all settled promises as they were; once the reactions have
    run, the promise the caller holds for a discarded entry is fulfilled
    with undefined, which is also how it settles for a task that returned
    undefined. *)
Theorem clear_discards_pending (w : World) :
  completesNormally (clear w)
  ∧ afterCatch (Rejected QueueClearError)
    = afterCatch (settledOf (Returns undefined))
  ∧ size (step w Clear) = 0%nat
  ∧ executing (step w Clear) = executing w
  ∧ handles (step w Clear) = handles w
  ∧ microtasks (step w Clear)
    = microtasks w ++ map clearError (queue (this w))
  ∧ ∀ e, e ∈ queue (this w) →
         handles (flush (step w Clear)) !! handle e = Some (Fulfilled undefined).
Proof.
  repeat split.
  intros e He. rewrite flush_handles. cbn. by apply settleAll_cleared.
Qed.

(** ** The running count *)

Lemma process_running_le (w : World) :
  running (this w) <= concurrency (this w) →
  running (this (stateOf (_process w))) <= concurrency (this w).
Proof.
  intros Hle. destruct (process_cases w) as [[_ ->]|(Hb & q' & e & _ & ->)];
    [done|].
  unfold blocked in Hb. apply orb_false_iff in Hb as [Hb _].
  apply orb_false_iff in Hb as [Hb _]. apply Z.leb_gt in Hb. cbn. lia.
Qed.

Lemma step_concurrency (w : World) (ev : Event) :
  concurrency (this (step w ev)) = concurrency (this w).
Proof.
  unfold step. destruct ev as [t p| | | |cb|h r|]; cbn [call stateOf]; try done.
  - unfold add. rewrite insertWithPriority_closed. cbn [bind].
    match goal with |- context [if ?b then _ else _] => destruct b end; [|done].
    by rewrite process_concurrency.
  - unfold start. by rewrite process_concurrency.
  - unfold settle. by destruct (isExecuting h w).
  - unfold tick. destruct (microtasks w) as [|[h s] rest]; [done|].
    cbn zeta. cbn [this withHandles]. open_finally.
    rewrite process_concurrency. by destruct (_ && _).
Qed.

Lemma step_running_le (w : World) (ev : Event) :
  running (this w) <= concurrency (this w) →
  running (this (step w ev)) <= concurrency (this w).
Proof.
  intros Hle. unfold step.
  destruct ev as [t p| | | |cb|h r|]; cbn [call stateOf]; try done.
  - unfold add. rewrite insertWithPriority_closed. cbn [bind].
    match goal with |- context [if ?b then _ else _] => destruct b end; [|done].
    match goal with |- context [_process ?y] =>
      exact (process_running_le y Hle) end.
  - unfold start. exact (process_running_le (withPaused false w) Hle).
  - unfold settle. by destruct (isExecuting h w).
  - unfold tick. destruct (microtasks w) as [|[h s] rest]; [done|].
    cbn zeta. cbn [this withHandles]. open_finally.
    match goal with |- context [_process ?y] =>
      pose proof (process_running_le y) as Hp end.
    destruct (_ && _); cbn in Hp; apply Hp; lia.
Qed.

(** The counter never exceeds the limit: [this.running++] is guarded by
    [this.running >= this.concurrency]. *)
Lemma running_never_exceeds_limit (options : Options) (evs : list Event) :
  1 <= concurrencyOrDefault (opt_concurrency options) →
  let w := run evs (stateOf (constructor options)) in
  concurrency (this w) = concurrencyOrDefault (opt_concurrency options)
  ∧ running (this w) <= concurrency (this w).
Proof.
  intros Hn. cbn zeta. induction evs as [|ev evs [IHc IHr]] using rev_ind.
  - cbn. lia.
  - rewrite run_snoc, step_concurrency. split; [done|].
    by apply step_running_le.
Qed.

(** C1, at the failing input.  Limit 1, one task running and one pending:
    after [clear()] and the reaction job of the discarded entry the counter
    is 0 although the first task still executes, and when that task settles
    the counter is -1.  If a third task is submitted instead, it is started
    next to the first one: two tasks execute under a limit of 1. *)
Theorem running_count_drops_below_zero :
  concurrency (this oneRunningOnePending) = 1
  ∧ running (this oneRunningOnePending) = 1
  ∧ running (this clearedThenSettled) = -1
  ∧ running (this clearedThenAdded) = 1
  ∧ map task (executing clearedThenAdded) = [10; 12]%nat.
Proof. repeat split. Qed.

(** ** The empty event *)

Lemma step_notified (w : World) (ev : Event) :
  notified (step w ev)
  = notified w ++ (if firesEmpty w ev then emptyCallbacks (this w) else []).
Proof.
  unfold step, firesEmpty.
  destruct ev as [t p| | | |cb|h r|]; cbn [call stateOf].
  - unfold add. rewrite insertWithPriority_closed. cbn [bind].
    rewrite app_nil_r.
    match goal with |- context [if ?b then _ else _] => destruct b end; [|done].
    by rewrite process_notified.
  - unfold start. by rewrite process_notified, app_nil_r.
  - cbn. by rewrite app_nil_r.
  - cbn. by rewrite app_nil_r.
  - cbn. by rewrite app_nil_r.
  - unfold settle. destruct (isExecuting h w); cbn; by rewrite app_nil_r.
  - unfold tick. destruct (microtasks w) as [|[h s] rest];
      [by rewrite app_nil_r|].
    cbn zeta. cbn [notified withHandles]. open_finally.
    rewrite process_notified. cbn [this withRunning withThis withMicrotasks
      queue running].
    destruct (_ && _); cbn; by rewrite ?app_nil_r.
Qed.

(** No step fires the callbacks while an entry is pending, paused or not. *)
Lemma no_empty_event_while_pending (w : World) (ev : Event) :
  queue (this w) ≠ [] → notified (step w ev) = notified w.
Proof.
  intros Hq. rewrite step_notified.
  replace (firesEmpty w ev) with false; [by rewrite app_nil_r|].
  unfold firesEmpty. destruct ev; try done.
  destruct (microtasks w); [done|].
  by destruct (queue (this w)).
Qed.

(** C5, at the failing input.  A callback is registered, one task runs, one
    is pending, and [clear()] is called: the reaction job of the discarded
    entry fires the callback while the first task is still executing. *)
Theorem empty_event_fires_while_task_executes :
  map task (executing watchedBeforeClear) = [10]%nat
  ∧ notified watchedBeforeClear = []
  ∧ firesEmpty watchedBeforeClear Tick = true
  ∧ map task (executing (step watchedBeforeClear Tick)) = [10]%nat
  ∧ notified (step watchedBeforeClear Tick) = [1]%nat.
Proof. repeat split. Qed.

(** ** [clear()] and the counter *)

Lemma clear_frame (w : World) :
  running (this (step w Clear)) = running (this w)
  ∧ paused (this (step w Clear)) = paused (this w).
Proof. done. Qed.

Lemma tick_empty_queue (w : World) (j : nat * Settled)
    (rest : list (nat * Settled)) :
  queue (this w) = [] → microtasks w = j :: rest →
  queue (this (tick w)) = []
  ∧ microtasks (tick w) = rest
  ∧ running (this (tick w)) = running (this w) - 1
  ∧ paused (this (tick w)) = paused (this w).
Proof.
  intros Hq Hm. unfold tick. rewrite Hm. destruct j as [h s]. cbn zeta.
  cbn [this microtasks withHandles]. open_finally.
  match goal with |- context [_process ?y] =>
    destruct (process_cases y) as [[_ ->]|(Hb & _)] end.
  - cbn. rewrite Hq. by destruct (_ && _).
  - exfalso. unfold blocked in Hb. apply orb_false_iff in Hb as [_ Hb].
    destruct (_ && _); cbn in Hb; by rewrite Hq in Hb.
Qed.

(** Discarding [k] pending entries lowers the counter by [k] once their
    reaction jobs have run. *)
Lemma flush_empty_queue (w : World) :
  queue (this w) = [] →
  running (this (flush w))
  = running (this w) - Z.of_nat (length (microtasks w))
  ∧ paused (this (flush w)) = paused (this w).
Proof.
  unfold flush. remember (microtasks w) as js eqn:Hm. symmetry in Hm.
  revert w Hm. induction js as [|j js IH]; intros w Hm Hq.
  - cbn. split; [lia|done].
  - destruct (tick_empty_queue w j js Hq Hm) as (Hq' & Hm' & Hr & Hp).
    cbn [length ticks]. destruct (IH (tick w) Hm' Hq') as [-> ->].
    split; [lia|done].
Qed.

(** C6, at the failing input.  [clear()] itself leaves the counter alone,
    but the finally handlers of the discarded entries decrement it: once the
    reaction jobs have run, the counter is lower by the number of jobs that
    were already waiting and by the number of discarded entries.  It goes
    from 1 to 0 while the one started task still executes, and from 0 to -3
    when three entries are discarded in a queue that never started
    anything. *)
Theorem clear_lowers_running_count :
  (∀ w, running (this (flush (step w Clear)))
        = running (this w) - Z.of_nat (length (microtasks w))
          - Z.of_nat (length (queue (this w))))
  ∧ running (this oneRunningOnePending) = 1
  ∧ running (this (step oneRunningOnePending Clear)) = 1
  ∧ running (this (flush (step oneRunningOnePending Clear))) = 0
  ∧ map task (executing (flush (step oneRunningOnePending Clear))) = [10]%nat
  ∧ running (this threePending) = 0
  ∧ running (this (flush (step threePending Clear))) = -3
  ∧ paused (this (flush (step threePending Clear))) = paused (this threePending).
Proof.
  split; [|repeat split].
  intros w. destruct (flush_empty_queue (step w Clear) eq_refl) as [-> _].
  cbn. rewrite length_app, length_map. lia.
Qed.

(** ** The default priority *)

(** An entry without a priority passes nothing, and nothing that arrives
    later passes it. *)
Lemma no_priority_stays_last (entry : Entry) (q : list Entry) :
  priority entry = None → priorityInsert entry q = q ++ [entry].
Proof.
  intros Hp. induction q as [|a q IH]; [done|].
  cbn [priorityInsert forallb]. unfold passes at 1. rewrite Hp.
  replace (js_ge (priority a) None) with false by (by destruct (priority a)).
  cbn [andb app]. by rewrite IH.
Qed.

(** C3, at the failing input.  [add] passes [options.priority] on as it is,
    so a task submitted without a priority carries undefined: it goes to the
    tail of the pending array whatever is pending.  Submitted after a
    pending task of priority 5 it is started before that task, whereas a
    task submitted with priority 0 is started after it; and of two tasks
    submitted without a priority the later one is started first. *)
Theorem missing_priority_is_not_zero :
  (∀ t h q, priorityInsert (mkEntry t None h) q = q ++ [mkEntry t None h])
  ∧ started (afterFiveThen None) = [10; 12]%nat
  ∧ map task (queue (this (afterFiveThen None))) = [11]%nat
  ∧ started (afterFiveThen (Some 0)) = [10; 11]%nat
  ∧ map task (queue (this (afterFiveThen (Some 0)))) = [12]%nat
  ∧ started afterTwoWithoutPriority = [10; 12]%nat
  ∧ map task (queue (this afterTwoWithoutPriority)) = [11]%nat.
Proof.
  split; [|repeat split].
  intros t h q. by apply no_priority_stays_last.
Qed.

(** ** Construction *)

(** C8, counterexample.  A limit of 0 is accepted: the constructor returns
    normally. *)
Lemma constructor_accepts_zero : ¬ rejectsNonPositiveLimit.
Proof.
  intros H. apply (H (mkOptions (Some 0) None) 0); [done|lia|exact I].
Qed.

(** C8, as the class has it.  The constructor never throws.  Without a
    limit, or with the limit 0, the queue gets the limit 1; every other
    limit is stored as given, negative ones included.  The first use of a
    queue with a negative limit does not fail either: [add] returns
    normally, keeps the entry pending and starts nothing. *)
Theorem constructor_accepts_any_limit (options : Options) :
  let w := stateOf (constructor options) in
  completesNormally (constructor options)
  ∧ (opt_concurrency options = None → concurrency (this w) = 1)
  ∧ (opt_concurrency options = Some 0 → concurrency (this w) = 1)
  ∧ (∀ n, opt_concurrency options = Some n → n ≠ 0 →
          concurrency (this w) = n)
  ∧ (∀ n t p, opt_concurrency options = Some n → n < 0 →
              completesNormally (add t p w)
              ∧ started (step w (Add t p)) = []
              ∧ size (step w (Add t p)) = 1%nat).
Proof.
  cbn zeta. split; [exact I|]. split; [|split; [|split]].
  - intros Hc. cbn. by rewrite Hc.
  - intros Hc. cbn. by rewrite Hc.
  - intros n Hc Hn. cbn. rewrite Hc. by destruct n.
  - intros n t p Hc Hn. split; [apply add_normal|].
    rewrite add_saturated.
    + by cbn.
    + cbn. rewrite Hc. destruct n; cbn; lia.
Qed.

Lemma constructor_accepts_any_limit_witness :
  concurrency (this (stateOf (constructor (mkOptions (Some (-2)) None)))) = -2
  ∧ started (step (stateOf (constructor (mkOptions (Some (-2)) None)))
               (Add 10%nat None)) = [].
Proof.
  pose proof (constructor_accepts_any_limit (mkOptions (Some (-2)) None))
    as (_ & _ & _ & Hn & Hneg).
  split.
  - apply (Hn (-2)); [reflexivity|discriminate].
  - apply (Hneg (-2) 10%nat None); reflexivity.
Defined.

(** ** [start()] *)





Lemma clear_discards_pending_witness :
  mkEntry 10 (Some 0) 0 ∈ queue (this onePending)
  ∧ size (step onePending Clear) = 0%nat
  ∧ handles (flush (step onePending Clear)) !! 0%nat = Some (Fulfilled undefined).
Proof.
  assert (He : mkEntry 10 (Some 0) 0 ∈ queue (this onePending))
    by (vm_compute; constructor).
  pose proof (clear_discards_pending onePending)
    as (_ & _ & Hs & _ & _ & _ & Hh).
  split; [exact He|]. split; [exact Hs|]. exact (Hh _ He).
Defined.

(** * Further properties of the class *)

(** ** Where [_insertWithPriority] puts an entry *)

Lemma priorityInsert_split (entry : Entry) (q : list Entry) :
  ∃ a s,
    q = a ++ s
    ∧ priorityInsert entry q = a ++ entry :: s
    ∧ forallb (passes entry) s = true
    ∧ (a = [] ∨ ∃ a' b, a = a' ++ [b] ∧ passes entry b = false).
Proof.
  induction q as [|b q IH] using rev_ind.
  - exists [], []. repeat split; by left.
  - destruct (passes entry b) eqn:Hb.
    + destruct IH as (a & s & -> & Hins & Hs & Ha).
      exists a, (s ++ [b]). split; [by rewrite app_assoc|]. split; [|split].
      * rewrite priorityInsert_app by (cbn; by rewrite Hb).
        rewrite Hins. by rewrite <- app_assoc.
      * rewrite forallb_app, Hs. cbn. by rewrite Hb.
      * done.
    + exists (q ++ [b]), []. split; [by rewrite app_nil_r|]. split; [|split].
      * rewrite priorityInsert_barrier by done. by rewrite <- app_assoc.
      * done.
      * right. by exists q, b.
Qed.

Lemma priorityInsert_length (entry : Entry) (q : list Entry) :
  length (priorityInsert entry q) = S (length q).
Proof.
  destruct (priorityInsert_split entry q) as (a & s & -> & -> & _).
  rewrite !length_app. cbn. lia.
Qed.

(** X10. [_insertWithPriority] never reads outside the array, so it never
    throws; it leaves the entries that were pending in the order they had
    and puts the new entry right behind the last entry [b] for which
    [b.priority >= entry.priority] is false (at index 0 when there is none):
    everything it has moved past compares [>=] to it. *)
Theorem insertion_keeps_relative_order (entry : Entry) (w : World) :
  ∃ a s,
    queue (this w) = a ++ s
    ∧ _insertWithPriority entry w = Normal (withQueue (a ++ entry :: s) w)
    ∧ forallb (fun x => js_ge (priority x) (priority entry)) s = true
    ∧ (a = [] ∨ ∃ a' b, a = a' ++ [b]
                        ∧ js_ge (priority b) (priority entry) = false).
Proof.
  destruct (priorityInsert_split entry (queue (this w)))
    as (a & s & Hq & Hins & Hs & Ha).
  exists a, s. split; [done|]. split; [|by split].
  by rewrite insertWithPriority_closed, Hins.
Qed.

(** ** What [add] does *)

Lemma add_step (t : nat) (p : option Z) (w : World) :
  let w1 := withQueue (priorityInsert (mkEntry t p (nextHandle w))
                         (queue (this w)))
              (withNextHandle (S (nextHandle w)) w) in
  step w (Add t p) = if autoStart (this w) then stateOf (_process w1) else w1.
Proof.
  cbn zeta. unfold step. cbn [call]. unfold add.
  rewrite insertWithPriority_closed. cbn [bind].
  change (autoStart (this (withQueue _ _))) with (autoStart (this w)).
  by destruct (autoStart (this w)).
Qed.

(** X9. [add] never throws and hands out the next handle.  With [autoStart]
    set, the queue not paused and the counter below the limit, it starts
    exactly one task at once: the tail of the pending array after the
    insertion.  Otherwise it starts nothing and the entry stays pending (in
    particular with [autoStart: false], until [start()] is called).  Either
    way the number of pending entries plus the number of tasks started so
    far grows by one. *)
Theorem add_starts_at_most_one (t : nat) (p : option Z) (w : World) :
  let entry := mkEntry t p (nextHandle w) in
  let w' := step w (Add t p) in
  completesNormally (add t p w)
  ∧ nextHandle w' = S (nextHandle w)
  ∧ (size w' + length (started w') = S (size w + length (started w)))%nat
  ∧ (autoStart (this w) = true → paused (this w) = false →
     running (this w) < concurrency (this w) →
     ∃ e q',
       priorityInsert entry (queue (this w)) = q' ++ [e]
       ∧ queue (this w') = q'
       ∧ started w' = started w ++ [task e]
       ∧ executing w' = executing w ++ [e]
       ∧ pending w' = pending w + 1)
  ∧ (autoStart (this w) = false ∨ paused (this w) = true
     ∨ concurrency (this w) <= running (this w) →
     queue (this w') = priorityInsert entry (queue (this w))
     ∧ started w' = started w
     ∧ executing w' = executing w
     ∧ pending w' = pending w).
Proof.
  cbn zeta. rewrite add_step. cbn zeta.
  set (entry := mkEntry t p (nextHandle w)).
  set (w1 := withQueue _ _).
  assert (Hlen1 : size w1 = S (size w))
    by (unfold size; cbn; apply priorityInsert_length).
  split; [apply add_normal|].
  destruct (autoStart (this w)) eqn:Hauto.
  - destruct (process_cases w1) as [[Hb Hpr]|(Hb & q' & e & Hq' & Hpr)];
      rewrite Hpr; cbn [stateOf].
    + split; [done|]. split; [by rewrite Hlen1|]. split.
      * intros _ Hp Hr. exfalso. unfold blocked in Hb.
        change (paused (this w1)) with (paused (this w)) in Hb.
        change (length (queue (this w1))) with (size w1) in Hb.
        change (running (this w1)) with (running (this w)) in Hb.
        change (concurrency (this w1)) with (concurrency (this w)) in Hb.
        rewrite Hp, orb_false_r, Hlen1 in Hb.
        apply orb_true_iff in Hb as [Hb|Hb]; [|done].
        apply Z.leb_le in Hb. lia.
      * done.
    + cbn in Hq'. split; [done|]. split; [|split].
      * unfold size in *. cbn. cbn in Hlen1. rewrite Hq' in Hlen1.
        rewrite !length_app in *. cbn in *. lia.
      * intros _ _ _. by exists e, q'.
      * intros Hno. exfalso. unfold blocked in Hb. cbn in Hb.
        apply orb_false_iff in Hb as [Hb _].
        apply orb_false_iff in Hb as [Hc Hp]. apply Z.leb_gt in Hc.
        destruct Hno as [Hno|[Hno|Hno]]; [done|congruence|lia].
  - split; [done|]. split; [by rewrite Hlen1|]. split; [done|]. done.
Qed.

Lemma add_starts_at_most_one_witness :
  autoStart (this (newQueue 1)) = true
  ∧ paused (this (newQueue 1)) = false
  ∧ running (this (newQueue 1)) < concurrency (this (newQueue 1))
  ∧ ∃ e q',
      priorityInsert (mkEntry 10 (Some 3) 0) (queue (this (newQueue 1)))
      = q' ++ [e]
      ∧ queue (this (step (newQueue 1) (Add 10%nat (Some 3)))) = q'
      ∧ started (step (newQueue 1) (Add 10%nat (Some 3)))
        = started (newQueue 1) ++ [task e]
      ∧ executing (step (newQueue 1) (Add 10%nat (Some 3)))
        = executing (newQueue 1) ++ [e]
      ∧ pending (step (newQueue 1) (Add 10%nat (Some 3)))
        = pending (newQueue 1) + 1.
Proof.
  split; [reflexivity|]. split; [reflexivity|]. split; [reflexivity|].
  exact (proj1 (proj2 (proj2 (proj2
           (add_starts_at_most_one 10%nat (Some 3) (newQueue 1)))))
           eq_refl eq_refl eq_refl).
Defined.

(** ** [pause()] *)

Lemma process_paused_noop (w : World) :
  paused (this w) = true → _process w = Normal w.
Proof.
  intros Hp. destruct (process_cases w) as [[_ ->]|[Hb _]]; [done|].
  unfold blocked in Hb. by rewrite Hp, orb_true_r in Hb.
Qed.

Lemma removeHandle_subset (h : nat) (l : list Entry) (e : Entry) :
  e ∈ removeHandle h l → e ∈ l.
Proof.
  induction l as [|x l IH]; cbn [removeHandle]; [done|].
  destruct (Nat.eqb (handle x) h).
  - intros He. by apply elem_of_cons; right.
  - intros He. apply elem_of_cons in He as [->|He];
      apply elem_of_cons; [by left|right; by apply IH].
Qed.

Lemma paused_step (w : World) (ev : Event) :
  paused (this w) = true → noStart ev = true →
  paused (this (step w ev)) = true
  ∧ started (step w ev) = started w
  ∧ ∀ e, e ∈ executing (step w ev) → e ∈ executing w.
Proof.
  intros Hp Hev.
  destruct ev as [t p| | | |cb|h r|]; try discriminate Hev.
  - rewrite add_step. cbn zeta. destruct (autoStart (this w)); [|done].
    by rewrite process_paused_noop.
  - done.
  - done.
  - done.
  - unfold step. cbn [call stateOf]. unfold settle.
    destruct (isExecuting h w); [|done]. cbn. split; [done|]. split; [done|].
    intros e. apply removeHandle_subset.
  - unfold step. cbn [call stateOf]. unfold tick.
    destruct (microtasks w) as [|[h s] rest]; [done|]. cbn zeta.
    open_finally. rewrite process_paused_noop; by destruct (_ && _).
Qed.

(** X8. After [pause()], and until [start()] is called, no submission,
    settlement, reaction job, [clear()] or [onEmpty()] starts a task: the
    queue stays paused, the list of started tasks does not grow, and the
    executing tasks are among those that were executing when [pause()] was
    called. *)
Theorem paused_queue_starts_nothing (w : World) (evs : list Event) :
  forallb noStart evs = true →
  let w' := run evs (step w Pause) in
  isPaused w' = true
  ∧ started w' = started w
  ∧ ∀ e, e ∈ executing w' → e ∈ executing w.
Proof.
  intros Hevs. cbn zeta. unfold isPaused.
  induction evs as [|ev evs IH] using rev_ind; [done|].
  rewrite forallb_app in Hevs. apply andb_true_iff in Hevs as [Hevs Hev].
  cbn in Hev. rewrite andb_true_r in Hev.
  destruct (IH Hevs) as (Hp & Hs & He). rewrite run_snoc.
  destruct (paused_step (run evs (step w Pause)) ev Hp Hev) as (Hp' & Hs' & He').
  split; [done|]. split; [congruence|]. intros e Hin. by apply He, He'.
Qed.

Lemma paused_queue_starts_nothing_witness :
  forallb noStart
    [Add 11%nat (Some 9); Settle 0%nat (Returns (Val 1%nat)); Tick] = true
  ∧ started (run [Add 11%nat (Some 9); Settle 0%nat (Returns (Val 1%nat)); Tick]
               (step oneRunning Pause))
    = started oneRunning.
Proof.
  split; [reflexivity|].
  apply (paused_queue_starts_nothing oneRunning
           [Add 11%nat (Some 9); Settle 0%nat (Returns (Val 1%nat)); Tick]).
  reflexivity.
Defined.

(** ** Auto-start queues keep the capacity used *)

Lemma conserving_process (w : World) :
  autoStart (this w) = true → paused (this w) = false →
  ((length (queue (this w)) ≤ 1)%nat
   ∨ concurrency (this w) <= running (this w) + 1) →
  conserving (stateOf (_process w)).
Proof.
  intros Ha Hp Hq.
  destruct (process_cases w) as [[Hb ->]|(Hb & q' & e & Hq' & ->)]; cbn [stateOf].
  - split; [done|]. split; [done|]. intros Hne.
    unfold blocked in Hb. rewrite Hp, orb_false_r in Hb.
    apply orb_true_iff in Hb as [Hb|Hb]; [by apply Z.leb_le|].
    apply Nat.eqb_eq in Hb. by destruct (queue (this w)).
  - split; [done|]. split; [done|]. cbn. intros Hne.
    destruct Hq as [Hq|Hq]; [|lia].
    rewrite Hq', length_app in Hq. cbn in Hq.
    destruct q'; [done|]. cbn in Hq. lia.
Qed.

Lemma conserving_step (w : World) (ev : Event) :
  conserving w → noPause ev = true → conserving (step w ev).
Proof.
  intros (Ha & Hp & Hq) Hev.
  destruct ev as [t p| | | |cb|h r|]; try discriminate Hev.
  - rewrite add_step. cbn zeta. rewrite Ha. apply conserving_process; [done..|].
    cbn. rewrite priorityInsert_length.
    destruct (queue (this w)) as [|x q]; [left; cbn; lia|].
    right. assert (concurrency (this w) <= running (this w)) by by apply Hq.
    lia.
  - unfold step. cbn [call]. unfold start. apply conserving_process; [done..|].
    cbn. destruct (queue (this w)) as [|x q]; [left; cbn; lia|].
    right. assert (concurrency (this w) <= running (this w)) by by apply Hq.
    lia.
  - by split.
  - by split.
  - unfold step. cbn [call stateOf]. unfold settle.
    by destruct (isExecuting h w).
  - unfold step. cbn [call stateOf]. unfold tick.
    destruct (microtasks w) as [|[h s] rest]; [by split|]. cbn zeta.
    assert (Hc : conserving (stateOf (finallyHandler (withMicrotasks rest w)))).
    { open_finally.
      destruct (_ && _); apply conserving_process; try done; cbn.
      - destruct (queue (this w)) as [|x q]; [left; cbn; lia|].
        right. assert (concurrency (this w) <= running (this w)) by by apply Hq.
        lia.
      - destruct (queue (this w)) as [|x q]; [left; cbn; lia|].
        right. assert (concurrency (this w) <= running (this w)) by by apply Hq.
        lia. }
    exact Hc.
Qed.

(** X6. In a queue constructed with [autoStart] left on and never paused,
    an entry is pending only while the counter is at or above the limit:
    whatever is submitted, settled, cleared or started, the queue never
    keeps work waiting while it counts free capacity. *)
Theorem autostart_queue_keeps_capacity_used (options : Options)
    (evs : list Event) :
  autoStartOrDefault (opt_autoStart options) = true →
  forallb noPause evs = true →
  let w := run evs (stateOf (constructor options)) in
  size w ≠ 0%nat → concurrency (this w) <= pending w.
Proof.
  intros Ha Hevs. cbn zeta.
  assert (Hc : conserving (run evs (stateOf (constructor options)))).
  { induction evs as [|ev evs IH] using rev_ind.
    - split; [done|]. split; [done|]. by intros [].
    - rewrite forallb_app in Hevs. apply andb_true_iff in Hevs as [Hevs Hev].
      cbn in Hev. rewrite andb_true_r in Hev.
      rewrite run_snoc. by apply conserving_step; [apply IH|]. }
  destruct Hc as (_ & _ & Hq). intros Hsize. apply Hq.
  intros Hnil. apply Hsize. unfold size. by rewrite Hnil.
Qed.

Lemma autostart_queue_keeps_capacity_used_witness :
  autoStartOrDefault (opt_autoStart (mkOptions (Some 2) None)) = true
  ∧ forallb noPause
      [Add 10%nat (Some 0); Add 11%nat (Some 0); Add 12%nat (Some 1)] = true
  ∧ size (run [Add 10%nat (Some 0); Add 11%nat (Some 0); Add 12%nat (Some 1)]
            (stateOf (constructor (mkOptions (Some 2) None)))) ≠ 0%nat
  ∧ concurrency (this (run [Add 10%nat (Some 0); Add 11%nat (Some 0);
                            Add 12%nat (Some 1)]
                         (stateOf (constructor (mkOptions (Some 2) None)))))
    <= pending (run [Add 10%nat (Some 0); Add 11%nat (Some 0);
                     Add 12%nat (Some 1)]
                  (stateOf (constructor (mkOptions (Some 2) None)))).
Proof.
  split; [reflexivity|]. split; [reflexivity|].
  assert (Hs : size (run [Add 10%nat (Some 0); Add 11%nat (Some 0);
                          Add 12%nat (Some 1)]
                       (stateOf (constructor (mkOptions (Some 2) None))))
               ≠ 0%nat) by discriminate.
  split; [exact Hs|].
  exact (autostart_queue_keeps_capacity_used (mkOptions (Some 2) None)
           [Add 10%nat (Some 0); Add 11%nat (Some 0); Add 12%nat (Some 1)]
           eq_refl eq_refl Hs).
Defined.

(** ** The counter and the executing tasks when [clear()] is not used *)

Lemma removeHandle_length (h : nat) (l : list Entry) :
  existsb (fun e => Nat.eqb (handle e) h) l = true →
  S (length (removeHandle h l)) = length l.
Proof.
  induction l as [|x l IH]; cbn [existsb removeHandle]; [done|].
  destruct (Nat.eqb (handle x) h); [done|]. cbn [orb length].
  intros He. by rewrite IH.
Qed.

Lemma counted_process (w : World) : counted w → counted (stateOf (_process w)).
Proof.
  unfold counted. intros Hc. split_process w; cbn [stateOf]; [done|].
  cbn. rewrite Hc, length_app. cbn. lia.
Qed.

Lemma counted_step (w : World) (ev : Event) :
  counted w → noClear ev = true → counted (step w ev).
Proof.
  intros Hc Hev.
  destruct ev as [t p| | | |cb|h r|]; try discriminate Hev.
  - rewrite add_step. cbn zeta.
    destruct (autoStart (this w)); [by apply counted_process|done].
  - unfold step. cbn [call]. unfold start. by apply counted_process.
  - done.
  - done.
  - unfold step. cbn [call stateOf]. unfold settle, isExecuting.
    destruct (existsb _ (executing w)) eqn:He; [|done].
    apply removeHandle_length in He. unfold counted in *. cbn.
    rewrite Hc, length_app. cbn. lia.
  - unfold step. cbn [call stateOf]. unfold tick.
    destruct (microtasks w) as [|[h s] rest] eqn:Hm; [done|]. cbn zeta.
    assert (Hf : counted (stateOf (finallyHandler (withMicrotasks rest w)))).
    { open_finally. unfold counted in Hc. rewrite Hm in Hc. cbn in Hc.
      destruct (_ && _); apply counted_process; unfold counted; cbn; lia. }
    exact Hf.
Qed.

Lemma counted_run (options : Options) (evs : list Event) :
  forallb noClear evs = true →
  counted (run evs (stateOf (constructor options))).
Proof.
  intros Hevs. induction evs as [|ev evs IH] using rev_ind; [done|].
  rewrite forallb_app in Hevs. apply andb_true_iff in Hevs as [Hevs Hev].
  cbn in Hev. rewrite andb_true_r in Hev.
  rewrite run_snoc. by apply counted_step; [apply IH|].
Qed.

(** X1. As long as [clear()] is not called, the counter is exact: it equals
    the number of tasks that are executing plus the number of settled tasks
    whose finally handler has not run yet.  Hence it is never negative, and
    with a limit of at least 1 the number of tasks executing at the same
    time never exceeds the limit. *)
Theorem executing_tasks_within_limit (options : Options) (evs : list Event) :
  1 <= concurrencyOrDefault (opt_concurrency options) →
  forallb noClear evs = true →
  let w := run evs (stateOf (constructor options)) in
  pending w = Z.of_nat (length (executing w) + length (microtasks w))
  ∧ 0 <= pending w
  ∧ Z.of_nat (length (executing w)) <= concurrency (this w).
Proof.
  intros Hn Hevs. cbn zeta.
  pose proof (counted_run options evs Hevs) as Hc.
  destruct (running_never_exceeds_limit options evs Hn) as [_ Hle].
  unfold pending, counted in *. split; [done|]. split; lia.
Qed.

Lemma executing_tasks_within_limit_witness :
  1 <= concurrencyOrDefault (opt_concurrency (mkOptions (Some 2) None))
  ∧ forallb noClear
      [Add 10%nat None; Add 11%nat (Some 1); Add 12%nat None;
       Settle 1%nat (Raises TypeError)] = true
  ∧ Z.of_nat (length (executing
       (run [Add 10%nat None; Add 11%nat (Some 1); Add 12%nat None;
             Settle 1%nat (Raises TypeError)]
          (stateOf (constructor (mkOptions (Some 2) None))))))
    <= concurrency (this
       (run [Add 10%nat None; Add 11%nat (Some 1); Add 12%nat None;
             Settle 1%nat (Raises TypeError)]
          (stateOf (constructor (mkOptions (Some 2) None))))).
Proof.
  assert (Hn : 1 <= concurrencyOrDefault
                      (opt_concurrency (mkOptions (Some 2) None)))
    by discriminate.
  split; [exact Hn|]. split; [reflexivity|].
  exact (proj2 (proj2 (executing_tasks_within_limit (mkOptions (Some 2) None)
           [Add 10%nat None; Add 11%nat (Some 1); Add 12%nat None;
            Settle 1%nat (Raises TypeError)] Hn eq_refl))).
Defined.

(** ** The empty event *)

Lemma tick_empty_queue_executing (w : World) (j : nat * Settled)
    (rest : list (nat * Settled)) :
  queue (this w) = [] → microtasks w = j :: rest →
  executing (tick w) = executing w.
Proof.
  intros Hq Hm. unfold tick. rewrite Hm. destruct j as [h s]. cbn zeta.
  cbn [executing withHandles]. open_finally.
  match goal with |- context [_process ?y] =>
    destruct (process_cases y) as [[_ ->]|(Hb & _)] end.
  - by destruct (_ && _).
  - exfalso. unfold blocked in Hb. apply orb_false_iff in Hb as [_ Hb].
    destruct (_ && _); cbn in Hb; by rewrite Hq in Hb.
Qed.

(** X2. As long as [clear()] is not called, the callbacks registered with
    [onEmpty] are called only when the queue is really idle: the step that
    calls them is the finally handler of the last unfinished task, no entry
    is pending and no task is executing before or after it, and the
    callbacks are called once each, in the order of their registration. *)
Theorem empty_callbacks_only_when_idle (options : Options) (evs : list Event)
    (ev : Event) :
  forallb noClear evs = true →
  let w := run evs (stateOf (constructor options)) in
  firesEmpty w ev = true →
  size w = 0%nat
  ∧ executing w = []
  ∧ (∃ j, microtasks w = [j])
  ∧ notified (step w ev) = notified w ++ emptyCallbacks (this w)
  ∧ size (step w ev) = 0%nat
  ∧ executing (step w ev) = []
  ∧ microtasks (step w ev) = [].
Proof.
  intros Hevs. cbn zeta. intros Hf.
  pose proof (counted_run options evs Hevs) as Hc.
  pose proof (step_notified (run evs (stateOf (constructor options))) ev) as Hn.
  rewrite Hf in Hn. revert Hf Hc Hn.
  generalize (run evs (stateOf (constructor options))). intros w Hf Hc Hn.
  unfold firesEmpty in Hf. destruct ev; try discriminate Hf.
  destruct (microtasks w) as [|j rest] eqn:Hm; [discriminate Hf|].
  apply andb_true_iff in Hf as [Hq Hr].
  apply Nat.eqb_eq in Hq. apply Z.eqb_eq in Hr.
  unfold counted in Hc. rewrite Hm in Hc. cbn [length] in Hc.
  assert (Hex : executing w = []) by (destruct (executing w); [done|cbn in Hc; lia]).
  assert (Hrest : rest = []).
  { rewrite Hex in Hc. destruct rest; [done|cbn in Hc; lia]. }
  assert (Hnil : queue (this w) = []) by by destruct (queue (this w)).
  destruct (tick_empty_queue w j rest Hnil Hm) as (Hq' & Hm' & _ & _).
  pose proof (tick_empty_queue_executing w j rest Hnil Hm) as Hex'.
  subst rest. unfold step. cbn [call stateOf]. unfold size.
  split; [done|]. split; [done|]. split; [by exists j|]. split; [exact Hn|].
  split; [by rewrite Hq'|]. split; [congruence|done].
Qed.

Lemma empty_callbacks_only_when_idle_witness :
  forallb noClear
    [OnEmpty 1%nat; OnEmpty 2%nat; Add 10%nat None;
     Settle 0%nat (Returns undefined)] = true
  ∧ firesEmpty
      (run [OnEmpty 1%nat; OnEmpty 2%nat; Add 10%nat None;
            Settle 0%nat (Returns undefined)]
         (stateOf (constructor (mkOptions None None)))) Tick = true
  ∧ notified
      (step (run [OnEmpty 1%nat; OnEmpty 2%nat; Add 10%nat None;
                  Settle 0%nat (Returns undefined)]
               (stateOf (constructor (mkOptions None None)))) Tick)
    = notified
        (run [OnEmpty 1%nat; OnEmpty 2%nat; Add 10%nat None;
              Settle 0%nat (Returns undefined)]
           (stateOf (constructor (mkOptions None None))))
      ++ emptyCallbacks (this
           (run [OnEmpty 1%nat; OnEmpty 2%nat; Add 10%nat None;
                 Settle 0%nat (Returns undefined)]
              (stateOf (constructor (mkOptions None None))))).
Proof.
  split; [reflexivity|]. split; [reflexivity|].
  exact (proj1 (proj2 (proj2 (proj2
           (empty_callbacks_only_when_idle (mkOptions None None)
              [OnEmpty 1%nat; OnEmpty 2%nat; Add 10%nat None;
               Settle 0%nat (Returns undefined)] Tick eq_refl eq_refl))))).
Defined.

Lemma process_emptyCallbacks (w : World) :
  emptyCallbacks (this (stateOf (_process w))) = emptyCallbacks (this w).
Proof. split_process w; reflexivity. Qed.

Lemma step_emptyCallbacks (w : World) (ev : Event) :
  emptyCallbacks (this (step w ev))
  = emptyCallbacks (this w) ++ registered [ev].
Proof.
  destruct ev as [t p| | | |cb|h r|]; cbn [registered flat_map];
    rewrite ?app_nil_r.
  - rewrite add_step. cbn zeta.
    destruct (autoStart (this w)); [by rewrite process_emptyCallbacks|done].
  - unfold step. cbn [call]. unfold start. by rewrite process_emptyCallbacks.
  - done.
  - done.
  - done.
  - unfold step. cbn [call stateOf]. unfold settle.
    by destruct (isExecuting h w).
  - unfold step. cbn [call stateOf]. unfold tick.
    destruct (microtasks w) as [|[h s] rest]; [done|]. cbn zeta.
    cbn [this withHandles]. open_finally. rewrite process_emptyCallbacks.
    by destruct (_ && _).
Qed.

(** X3. Callbacks are only ever added, by [onEmpty], at the end of the
    list; nothing removes one.  So at any time the list holds the callbacks
    registered so far in the order of their registration, and every step
    that finds the queue empty right after a decrement to 0 calls all of
    them again in that order; no other step calls any. *)
Theorem empty_callbacks_persist_in_order (w : World) (evs : list Event) :
  let w' := run evs w in
  emptyCallbacks (this w') = emptyCallbacks (this w) ++ registered evs
  ∧ ∀ ev,
      notified (step w' ev)
      = notified w'
        ++ (if firesEmpty w' ev
            then emptyCallbacks (this w) ++ registered evs
            else []).
Proof.
  cbn zeta.
  assert (Hcb : emptyCallbacks (this (run evs w))
                = emptyCallbacks (this w) ++ registered evs).
  { induction evs as [|ev evs IH] using rev_ind.
    - cbn. by rewrite app_nil_r.
    - rewrite run_snoc, step_emptyCallbacks, IH.
      unfold registered. rewrite flat_map_app. by rewrite app_assoc. }
  split; [done|]. intros ev. by rewrite step_notified, Hcb.
Qed.

(** ** The next task to start *)

Lemma pop_Some (q q' : list Entry) (e : Entry) :
  pop q = Some (e, q') → q = q' ++ [e].
Proof.
  destruct q as [|x q _] using rev_ind; [done|].
  rewrite pop_snoc. by intros [= -> ->].
Qed.

(** X7. In a queue whose submissions all name their priority, the entry that
    [_process] takes is a pending entry of the highest priority, and among
    the pending entries of that priority the one submitted first: every
    entry it leaves pending has a lower priority, or the same priority and a
    later handle.  When the guard of [_process] lets it through, that entry
    is the task it starts. *)
Theorem next_started_has_highest_priority (options : Options)
    (evs : list Event) (e : Entry) (q' : list Entry) :
  forallb explicitPriority evs = true →
  let w := run evs (stateOf (constructor options)) in
  pop (queue (this w)) = Some (e, q') →
  (∀ e', e' ∈ q' →
     ∃ p p', priority e = Some p ∧ priority e' = Some p'
             ∧ (p' < p ∨ (p' = p ∧ (handle e < handle e')%nat)))
  ∧ (blocked w = false →
     queue (this (stateOf (_process w))) = q'
     ∧ started (stateOf (_process w)) = started w ++ [task e]).
Proof.
  intros Hevs. cbn zeta. intros Hpop.
  pose proof (run_stable evs _ Hevs (constructor_stable options)) as [Hs _].
  apply pop_Some in Hpop. split.
  - intros e' He'. rewrite Hpop in Hs.
    assert (Hb : below e' e).
    { apply (StronglySorted_app_1_elem_of below q' [e]); [done|done|].
      by apply list_elem_of_singleton. }
    unfold below in Hb.
    destruct (priority e') as [p'|]; [|done].
    destruct (priority e) as [p|]; [|done]. by exists p, p'.
  - intros Hb. destruct (process_starts _ Hb) as (q'' & e'' & Hq & ->).
    rewrite Hpop in Hq. apply app_inj_tail in Hq as [-> ->]. by cbn.
Qed.

Lemma next_started_has_highest_priority_witness :
  forallb explicitPriority
    [Add 10%nat (Some 0); Add 11%nat (Some 0); Add 12%nat (Some 1);
     Add 13%nat (Some 5); Add 14%nat (Some 1)] = true
  ∧ pop (queue (this mixedPriorities))
    = Some (mkEntry 13 (Some 5) 3,
            [mkEntry 14 (Some 1) 4; mkEntry 12 (Some 1) 2])
  ∧ ∀ e', e' ∈ [mkEntry 14 (Some 1) 4; mkEntry 12 (Some 1) 2] →
      ∃ p p', priority (mkEntry 13 (Some 5) 3) = Some p
              ∧ priority e' = Some p'
              ∧ (p' < p
                 ∨ (p' = p ∧ (handle (mkEntry 13 (Some 5%Z) 3) < handle e')%nat)).
Proof.
  split; [reflexivity|]. split; [reflexivity|].
  exact (proj1 (next_started_has_highest_priority (mkOptions (Some 2) None)
           [Add 10%nat (Some 0); Add 11%nat (Some 0); Add 12%nat (Some 1);
            Add 13%nat (Some 5); Add 14%nat (Some 1)]
           (mkEntry 13 (Some 5) 3)
           [mkEntry 14 (Some 1) 4; mkEntry 12 (Some 1) 2]
           eq_refl eq_refl)).
Defined.

(** ** Every promise handed out by [add] settles once *)

Lemma trackedOf_perm (l l' : list nat) (hs : gmap nat Settled) (n : nat) :
  l ≡ₚ l' → trackedOf l hs n → trackedOf l' hs n.
Proof.
  intros Hp (Hnd & Hnone & Hlt). split; [by rewrite <- Hp|]. split.
  - intros h Hh. apply Hnone. by rewrite Hp.
  - intros h. rewrite <- Hp. apply Hlt.
Qed.

Lemma trackedOf_fresh (l : list nat) (hs : gmap nat Settled) (n : nat) :
  trackedOf l hs n → trackedOf (n :: l) hs (S n).
Proof.
  intros (Hnd & Hnone & Hlt).
  assert (Hn : ¬ (n ∈ l ∨ is_Some (hs !! n))).
  { intros H. apply Hlt in H. lia. }
  split; [|split].
  - apply NoDup_cons. split; [|done]. intros Hin. apply Hn. by left.
  - intros h Hh. apply elem_of_cons in Hh as [->|Hh]; [|by apply Hnone].
    destruct (hs !! n) eqn:Hl; [|done]. exfalso. apply Hn. right. by eexists.
  - intros h. rewrite elem_of_cons. specialize (Hlt h). split.
    + intros Hh. destruct (decide (h = n)) as [->|Hne]; [by left; left|].
      assert (Hh' : (h < n)%nat) by lia. apply Hlt in Hh'. tauto.
    + intros [[->|Hh]|Hh]; [lia| |]; assert (h < n)%nat by (apply Hlt; tauto);
        lia.
Qed.

Lemma trackedOf_settle (h : nat) (s : Settled) (l : list nat)
    (hs : gmap nat Settled) (n : nat) :
  trackedOf (h :: l) hs n → trackedOf l (<[h := s]> hs) n.
Proof.
  intros (Hnd & Hnone & Hlt). apply NoDup_cons in Hnd as [Hh Hnd].
  split; [done|]. split.
  - intros h' Hh'. rewrite lookup_insert_ne by (intros ->; done).
    apply Hnone. by apply elem_of_cons; right.
  - intros h'. rewrite Hlt, elem_of_cons.
    destruct (decide (h = h')) as [->|Hne].
    + rewrite lookup_insert_eq. split; [intros _; right; by eexists|].
      intros _. by left; left.
    + rewrite lookup_insert_ne by done. split; [|tauto].
      intros [[->|H]|H]; [done|by left|by right].
Qed.

Lemma live_process (w : World) :
  liveHandles (stateOf (_process w)) ≡ₚ liveHandles w.
Proof.
  destruct (process_cases w) as [[_ ->]|(_ & q' & e & Hq & ->)]; [done|].
  unfold liveHandles. cbn. rewrite Hq, !map_app. cbn.
  rewrite <- !app_assoc. cbn. apply Permutation_app_head.
  symmetry. apply Permutation_middle.
Qed.

Lemma tracked_process (w : World) : tracked w → tracked (stateOf (_process w)).
Proof.
  unfold tracked. rewrite process_handles, process_nextHandle.
  apply trackedOf_perm. symmetry. apply live_process.
Qed.

Lemma live_removeHandle (h : nat) (l : list Entry) :
  existsb (fun e => Nat.eqb (handle e) h) l = true →
  map handle l ≡ₚ h :: map handle (removeHandle h l).
Proof.
  induction l as [|x l IH]; cbn [existsb removeHandle map]; [done|].
  destruct (Nat.eqb (handle x) h) eqn:Hx.
  - apply Nat.eqb_eq in Hx. by rewrite Hx.
  - cbn [orb map]. intros He. rewrite (IH He). apply perm_swap.
Qed.

Lemma map_fst_clearError (q : list Entry) :
  map fst (map clearError q) = map handle q.
Proof. induction q as [|x q IH]; [done|]. cbn. by rewrite IH. Qed.

Lemma tracked_step (w : World) (ev : Event) : tracked w → tracked (step w ev).
Proof.
  intros Hw. destruct ev as [t p| | | |cb|h r|].
  - rewrite add_step. cbn zeta.
    set (w1 := withQueue _ _).
    assert (H1 : tracked w1).
    { unfold tracked. apply (trackedOf_perm (nextHandle w :: liveHandles w));
        [|by apply trackedOf_fresh].
      unfold liveHandles. subst w1. cbn.
      destruct (priorityInsert_split (mkEntry t p (nextHandle w))
                  (queue (this w))) as (a & s & -> & -> & _).
      rewrite !map_app. cbn. rewrite <- !app_assoc. cbn.
      apply Permutation_middle. }
    destruct (autoStart (this w)); [by apply tracked_process|done].
  - unfold step. cbn [call]. unfold start.
    by apply (tracked_process (withPaused false w)).
  - done.
  - unfold step. cbn [call stateOf]. unfold tracked.
    apply (trackedOf_perm (liveHandles w)); [|done].
    unfold liveHandles. cbn. rewrite map_app, map_fst_clearError.
    solve_Permutation.
  - done.
  - unfold step. cbn [call stateOf]. unfold settle, isExecuting.
    destruct (existsb _ (executing w)) eqn:He; [|done].
    unfold tracked. apply (trackedOf_perm (liveHandles w)); [|done].
    unfold liveHandles. cbn. rewrite (live_removeHandle h _ He), map_app. cbn.
    solve_Permutation.
  - unfold step. cbn [call stateOf]. unfold tick.
    destruct (microtasks w) as [|[h s] rest] eqn:Hm; [done|]. cbn zeta.
    rewrite afterFinally_normal.
    assert (H1 : trackedOf
              (liveHandles (stateOf (finallyHandler (withMicrotasks rest w))))
              (<[h := afterCatch s]> (handles w)) (nextHandle w)).
    { apply (trackedOf_perm
               (map handle (queue (this w)) ++ map handle (executing w)
                ++ map fst rest)).
      - open_finally. rewrite live_process. by destruct (_ && _).
      - apply trackedOf_settle.
        apply (trackedOf_perm (liveHandles w)); [|done].
        unfold liveHandles. rewrite Hm. cbn. solve_Permutation. }
    unfold tracked. cbn [handles nextHandle withHandles].
    rewrite finallyHandler_handles.
    assert (Hn : nextHandle (stateOf (finallyHandler (withMicrotasks rest w)))
                 = nextHandle w).
    { open_finally. rewrite process_nextHandle. by destruct (_ && _). }
    rewrite Hn. exact H1.
Qed.

Lemma tracked_run (options : Options) (evs : list Event) :
  tracked (run evs (stateOf (constructor options))).
Proof.
  induction evs as [|ev evs IH] using rev_ind.
  - split; [constructor|]. split; [done|]. intros h. cbn.
    rewrite lookup_empty. split; [lia|].
    intros [H|[? H]]; [by apply elem_of_nil in H|done].
  - rewrite run_snoc. by apply tracked_step.
Qed.

Lemma step_handles_exact (w : World) (ev : Event) :
  handles (step w ev)
  = match ev, microtasks w with
    | Tick, (h, s) :: _ => <[h := afterCatch s]> (handles w)
    | _, _ => handles w
    end.
Proof.
  destruct ev as [t p| | | |cb|h r|].
  - unfold step. cbn [call]. apply add_handles.
  - unfold step. cbn [call]. unfold start. by rewrite process_handles.
  - done.
  - done.
  - done.
  - unfold step. cbn [call stateOf]. unfold settle.
    by destruct (isExecuting h w).
  - unfold step. cbn [call stateOf].
    destruct (microtasks w) as [|[h s] rest] eqn:Hm.
    + unfold tick. by rewrite Hm.
    + by destruct (tick_job w h s rest Hm) as [_ ->].
Qed.

(** X5. In every run of a queue, the promises handed out by [add] are
    exactly the handles below the next one, and each of them is in one
    place only: its entry is pending, or its task is executing, or its
    reaction job waits in the microtask queue, or it has settled.  No
    submission is lost or counted twice, and a promise that has settled
    keeps its state whatever happens next. *)
Theorem promises_settle_once (options : Options) (evs : list Event) :
  let w := run evs (stateOf (constructor options)) in
  NoDup (liveHandles w)
  ∧ (∀ h, h ∈ liveHandles w → handles w !! h = None)
  ∧ (∀ h, (h < nextHandle w)%nat ↔ h ∈ liveHandles w ∨ is_Some (handles w !! h))
  ∧ (∀ ev h s, handles w !! h = Some s → handles (step w ev) !! h = Some s).
Proof.
  cbn zeta. destruct (tracked_run options evs) as (Hnd & Hnone & Hlt).
  split; [done|]. split; [done|]. split; [done|].
  intros ev h s Hs. rewrite step_handles_exact.
  destruct ev; try done.
  destruct (microtasks (run evs (stateOf (constructor options))))
    as [|[h' s'] rest] eqn:Hm; [done|].
  rewrite lookup_insert_ne; [done|]. intros ->.
  assert (Hlive : h ∈ liveHandles (run evs (stateOf (constructor options)))).
  { unfold liveHandles. rewrite Hm. cbn.
    apply elem_of_app; right. apply elem_of_app; right.
    by apply elem_of_cons; left. }
  apply Hnone in Hlive. congruence.
Qed.

(** ** The outcome of a task reaches its promise *)

Lemma afterCatch_task (r : TaskResult) : afterCatch (settledOf r) = settledOf r.
Proof. by destruct r. Qed.

Lemma executing_live (h : nat) (w : World) :
  isExecuting h w = true → h ∈ liveHandles w.
Proof.
  unfold isExecuting, liveHandles. intros He.
  apply elem_of_app; right. apply elem_of_app; left.
  apply existsb_exists in He as (e & Hin & Heq). apply Nat.eqb_eq in Heq.
  subst h. apply list_elem_of_In, in_map, Hin.
Qed.

Lemma settled_stays_step (w : World) (ev : Event) (h : nat) (s : Settled) :
  tracked w → handles w !! h = Some s → handles (step w ev) !! h = Some s.
Proof.
  intros (_ & Hnone & _) Hs. rewrite step_handles_exact.
  destruct ev; try done.
  destruct (microtasks w) as [|[h' s'] rest] eqn:Hm; [done|].
  rewrite lookup_insert_ne; [done|]. intros ->.
  assert (Hlive : h ∈ liveHandles w).
  { unfold liveHandles. rewrite Hm. cbn.
    apply elem_of_app; right. apply elem_of_app; right.
    by apply elem_of_cons; left. }
  apply Hnone in Hlive. congruence.
Qed.

Lemma settled_stays_run (evs : list Event) (w : World) (h : nat) (s : Settled) :
  tracked w → handles w !! h = Some s → handles (run evs w) !! h = Some s.
Proof.
  revert w. induction evs as [|ev evs IH]; intros w Hw Hs; [done|].
  unfold run. cbn [foldl]. apply IH; [by apply tracked_step|].
  by apply settled_stays_step.
Qed.

Lemma tracked_ticks (n : nat) (w : World) : tracked w → tracked (ticks n w).
Proof.
  revert w. induction n as [|n IH]; intros w Hw; [done|].
  cbn [ticks]. apply IH. exact (tracked_step w Tick Hw).
Qed.

(** X4. When an executing task settles, with a value or with an error, the
    promise that [add] returned for it was still unsettled, takes exactly
    that outcome once the microtask queue has run, and keeps it through
    everything that happens to the queue afterwards. *)
Theorem handle_takes_task_outcome (options : Options) (evs : list Event)
    (h : nat) (r : TaskResult) :
  let w := run evs (stateOf (constructor options)) in
  isExecuting h w = true →
  handles w !! h = None
  ∧ ∀ evs',
      handles (run evs' (flush (step w (Settle h r)))) !! h
      = Some (settledOf r).
Proof.
  cbn zeta. intros He.
  pose proof (tracked_run options evs) as Hw.
  split; [destruct Hw as (_ & Hnone & _); by apply Hnone, executing_live|].
  intros evs'. apply settled_stays_run.
  - apply tracked_ticks. by apply tracked_step.
  - rewrite flush_handles. unfold step. cbn [call stateOf].
    destruct (settle_executing _ h r He) as (-> & -> & _).
    rewrite settleAll_snoc, afterCatch_task. by rewrite lookup_insert_eq.
Qed.

Lemma handle_takes_task_outcome_witness :
  isExecuting 0 (run [Add 10%nat None] (stateOf (constructor (mkOptions None None))))
  = true
  ∧ ∀ evs',
      handles (run evs'
                 (flush (step (run [Add 10%nat None]
                                 (stateOf (constructor (mkOptions None None))))
                           (Settle 0%nat (Returns (Val 42%nat))))))
        !! 0%nat
      = Some (settledOf (Returns (Val 42%nat))).
Proof.
  split; [reflexivity|].
  exact (proj2 (handle_takes_task_outcome (mkOptions None None)
                  [Add 10%nat None] 0%nat (Returns (Val 42%nat)) eq_refl)).
Defined.

(** ** A discarded entry is never started *)

Lemma settling_step (w : World) (ev : Event) (h : nat) :
  h ∈ map fst (microtasks w) ∨ is_Some (handles w !! h) →
  h ∈ map fst (microtasks (step w ev)) ∨ is_Some (handles (step w ev) !! h).
Proof.
  intros Hh. rewrite step_handles_exact.
  destruct ev as [t p| | | |cb|h' r|].
  - rewrite add_step. cbn zeta.
    destruct (autoStart (this w)); [by rewrite process_microtasks|done].
  - unfold step. cbn [call]. unfold start. by rewrite process_microtasks.
  - done.
  - destruct Hh as [Hh|Hh]; [left|by right].
    unfold step. cbn. rewrite map_app. apply elem_of_app. by left.
  - done.
  - destruct Hh as [Hh|Hh]; [left|by right].
    unfold step. cbn [call stateOf]. unfold settle.
    destruct (isExecuting h' w); [|done]. cbn. rewrite map_app.
    apply elem_of_app. by left.
  - unfold step. cbn [call stateOf].
    destruct (microtasks w) as [|[h' s'] rest] eqn:Hm.
    + unfold tick. rewrite Hm. cbn. by rewrite Hm.
    + destruct (tick_job w h' s' rest Hm) as [-> _].
      destruct (decide (h' = h)) as [->|Hne].
      * right. rewrite lookup_insert_eq. by eexists.
      * rewrite lookup_insert_ne by done.
        destruct Hh as [Hh|Hh]; [left|by right].
        cbn in Hh. apply elem_of_cons in Hh as [Hh|Hh]; [congruence|done].
Qed.

(** X11. An entry discarded by [clear()] is never started: whatever happens
    to the queue afterwards, no pending entry and no executing task carries
    its handle any more. *)
Theorem discarded_entry_never_starts (options : Options)
    (evs evs' : list Event) (e : Entry) :
  let w := run evs (stateOf (constructor options)) in
  let w' := run evs' (step w Clear) in
  e ∈ queue (this w) →
  (handle e ∉ map handle (queue (this w')))
  ∧ (handle e ∉ map handle (executing w')).
Proof.
  cbn zeta. intros He.
  set (w := run evs (stateOf (constructor options))) in *.
  assert (Hgone : handle e ∈ map fst (microtasks (run evs' (step w Clear)))
                  ∨ is_Some (handles (run evs' (step w Clear)) !! handle e)).
  { induction evs' as [|ev evs' IH] using rev_ind.
    - left. cbn. rewrite map_app, map_fst_clearError.
      apply elem_of_app; right. apply list_elem_of_In, in_map.
      by apply list_elem_of_In.
    - rewrite run_snoc. by apply settling_step. }
  assert (Ht : tracked (run evs' (step w Clear))).
  { assert (Hrun : run evs' (step w Clear)
                   = run ((evs ++ [Clear]) ++ evs')
                       (stateOf (constructor options))).
    { unfold run, w. by rewrite !foldl_app. }
    rewrite Hrun. apply tracked_run. }
  destruct Ht as (Hnd & Hnone & _). unfold liveHandles in Hnd, Hnone.
  apply NoDup_app in Hnd as (_ & Hq & Hnd).
  apply NoDup_app in Hnd as (_ & Hex & _).
  destruct Hgone as [Hm|[s Hs]].
  - split.
    + intros Hin. apply (Hq _ Hin). apply elem_of_app. by right.
    + intros Hin. by apply (Hex _ Hin).
  - split; intros Hin.
    + rewrite Hnone in Hs; [done|]. apply elem_of_app. by left.
    + rewrite Hnone in Hs; [done|].
      apply elem_of_app; right. apply elem_of_app. by left.
Qed.

Lemma discarded_entry_never_starts_witness :
  mkEntry 11 None 1 ∈ queue (this oneRunningOnePending)
  ∧ handle (mkEntry 11 None 1)
    ∉ map handle
        (executing (run [Tick; Add 12%nat None; Start]
                      (step oneRunningOnePending Clear))).
Proof.
  assert (He : mkEntry 11 None 1 ∈ queue (this oneRunningOnePending))
    by (vm_compute; constructor).
  split; [exact He|].
  exact (proj2 (discarded_entry_never_starts (mkOptions (Some 1) None)
                  [Add 10%nat None; Add 11%nat None]
                  [Tick; Add 12%nat None; Start] (mkEntry 11 None 1) He)).
Defined.
